(** * python-sample: the greeting and utility operations of [redherring.py]
      and the calling script [main.py]

    The development has four parts.

    - [Py]: the fragment of the Python run time the two files rely on:
      values, exceptions, a state-and-exception monad over the object heap
      and the standard output, binary64 arithmetic ([int / int],
      [int * float], ...) on top of the IEEE 754 specification of
      [SpecFloat], [str()] of the printable values, and [from m import ...].
    - [redherring]: the definitions of [redherring.py], one for one.
    - [main]: the script [main.py].
    - the properties of the operations: the greetings, the summation, the
      state an instance holds, the calling script, and the accuracy of the
      discount, which rests on an account of rounding in binary64. *)

From Stdlib Require Import ZArith QArith Qabs Qpower Lqa String Ascii List Lia DecimalString Permutation.
From Corelib Require Import SpecFloat.
From stdpp Require Import gmap strings.

Local Open Scope Z_scope.

(** ** The Python fragment *)

Module Py.

(** Python's [float] is IEEE 754 binary64. *)
Definition prec : Z := 53.
Definition emax : Z := 1024.
Abbreviation float := spec_float.

(** The values that the two files store, format and print. *)
Inductive val : Type :=
| VStr (s : string)
| VInt (z : Z)
| VFloat (f : float).

Inductive exn : Type :=
| ModuleNotFoundError (module : string)
| ImportError (module name : string)
| AttributeError (name : string)
| TypeError
| ZeroDivisionError
| OverflowError.

Inductive result (A : Type) : Type :=
| Ok (a : A)
| Raise (e : exn).
Arguments Ok {A} a.
Arguments Raise {A} e.

#[export] Instance result_bind : MBind result := fun A B k r =>
  match r with
  | Ok a => k a
  | Raise e => Raise e
  end.

(** An instance is its attribute dictionary ([__dict__]); the heap maps
    object identities to instances; [stdout] is the character stream that
    [print] has written so far. *)
Definition loc : Type := positive.

Record state : Type := State {
  heap : gmap loc (gmap string val);
  stdout : string
}.

Definition M (A : Type) : Type := state -> result A * state.

Definition run {A} (c : M A) (st : state) : result A * state := c st.

#[export] Instance M_ret : MRet M := fun A a st => (Ok a, st).

#[export] Instance M_bind : MBind M := fun A B k c st =>
  match c st with
  | (Ok a, st') => k a st'
  | (Raise e, st') => (Raise e, st')
  end.

Definition raise {A} (e : exn) : M A := fun st => (Raise e, st).

Definition lift {A} (r : result A) : M A := fun st => (r, st).

(** [object.__new__]: a fresh identity with an empty attribute dictionary. *)
Definition alloc : M loc := fun st =>
  let l := fresh (dom (heap st)) in
  (Ok l, State (<[l := ∅]> (heap st)) (stdout st)).

(** [self.name = v] *)
Definition setattr (self : loc) (name : string) (v : val) : M unit := fun st =>
  match heap st !! self with
  | Some d => (Ok tt, State (<[self := <[name := v]> d]> (heap st)) (stdout st))
  | None => (Raise (AttributeError name), st)
  end.

(** [self.name] *)
Definition getattr (self : loc) (name : string) : M val := fun st =>
  match heap st !! self with
  | Some d =>
      match d !! name with
      | Some v => (Ok v, st)
      | None => (Raise (AttributeError name), st)
      end
  | None => (Raise (AttributeError name), st)
  end.

(** *** Integers and binary64 numbers *)

(** [float(z)] as the arithmetic operators apply it to an [int] operand:
    round to nearest, ties to even; [OverflowError] beyond the range. *)
Definition float_of_int (z : Z) : result float :=
  match binary_normalize prec emax z 0 false with
  | S754_infinity _ => Raise OverflowError
  | f => Ok f
  end.

(** [a / b] on two [int]s: the correctly rounded quotient. *)
Definition int_truediv (a b : Z) : result float :=
  if b =? 0 then Raise ZeroDivisionError
  else if a =? 0 then Ok (S754_zero (b <? 0))
  else
    let '(q, e, l) := SFdiv_core_binary prec emax (Z.abs a) 0 (Z.abs b) 0 in
    match binary_round_aux prec emax (xorb (a <? 0) (b <? 0)) q e l with
    | S754_infinity _ => Raise OverflowError
    | f => Ok f
    end.

Definition is_zero (f : float) : bool :=
  match f with S754_zero _ => true | _ => false end.

(** [x / y] on two [float]s. *)
Definition float_truediv (x y : float) : result float :=
  if is_zero y then Raise ZeroDivisionError else Ok (SFdiv prec emax x y).

Definition float_mul (x y : float) : float := SFmul prec emax x y.

Fixpoint str_repeat (s : string) (n : nat) : string :=
  match n with
  | O => ""
  | S n' => s +:+ str_repeat s n'
  end.

(** The binary operator [/]. *)
Definition truediv (x y : val) : result val :=
  match x, y with
  | VInt a, VInt b => f ← int_truediv a b; Ok (VFloat f)
  | VInt a, VFloat g => f ← float_of_int a; h ← float_truediv f g; Ok (VFloat h)
  | VFloat f, VInt b => g ← float_of_int b; h ← float_truediv f g; Ok (VFloat h)
  | VFloat f, VFloat g => h ← float_truediv f g; Ok (VFloat h)
  | _, _ => Raise TypeError
  end.

(** The binary operator [*]. *)
Definition mul (x y : val) : result val :=
  match x, y with
  | VInt a, VInt b => Ok (VInt (a * b))
  | VInt a, VFloat g => f ← float_of_int a; Ok (VFloat (float_mul f g))
  | VFloat f, VInt b => g ← float_of_int b; Ok (VFloat (float_mul f g))
  | VFloat f, VFloat g => Ok (VFloat (float_mul f g))
  | VStr s, VInt n | VInt n, VStr s => Ok (VStr (str_repeat s (Z.to_nat n)))
  | _, _ => Raise TypeError
  end.

(** *** [str()] of the printable values *)

Definition newline : string := String "010" "".

Definition str_of_int (z : Z) : string := NilZero.string_of_int (Z.to_int z).

Definition zeros (n : Z) : string := str_repeat "0" (Z.to_nat n).

Definition float_eqb (x y : float) : bool :=
  match x, y with
  | S754_zero s, S754_zero t => Bool.eqb s t
  | S754_infinity s, S754_infinity t => Bool.eqb s t
  | S754_nan, S754_nan => true
  | S754_finite s m e, S754_finite t n f => Bool.eqb s t && (m =? n)%positive && (e =? f)
  | _, _ => false
  end.

(** The binary64 number nearest to [d * 10^q], for [0 <= d]: what [float]
    makes of a decimal literal. *)
Definition float_of_decimal (d q : Z) : float :=
  if d =? 0 then S754_zero false
  else if 0 <=? q then binary_normalize prec emax (d * 10 ^ q) 0 false
  else
    let '(m, e, l) := SFdiv_core_binary prec emax d 0 (10 ^ (- q)) 0 in
    binary_round_aux prec emax false m e l.

(** The positive number [m * 2^e] as a fraction of two positive integers. *)
Definition fraction_of (m : positive) (e : Z) : Z * Z :=
  if 0 <=? e then (Z.pos m * 2 ^ e, 1) else (Z.pos m, 2 ^ (- e)).

(** [num / den] scaled by [10^(-q)], again as a fraction. *)
Definition scale10 (nd : Z * Z) (q : Z) : Z * Z :=
  let '(num, den) := nd in
  if 0 <=? q then (num, den * 10 ^ q) else (num * 10 ^ (- q), den).

(** The least [n], among [fuel] candidates from [n] on, with
    [num / den < 10^n]. *)
Fixpoint decimal_exponent (fuel : nat) (nd : Z * Z) (n : Z) : Z :=
  match fuel with
  | O => n
  | S fuel' =>
      let '(num, den) := scale10 nd n in
      if num <? den then n else decimal_exponent fuel' nd (n + 1)
  end.

Fixpoint strip_zeros (fuel : nat) (d q : Z) : Z * Z :=
  match fuel with
  | O => (d, q)
  | S fuel' => if (d mod 10 =? 0) && negb (d =? 0) then strip_zeros fuel' (d / 10) (q + 1) else (d, q)
  end.

(** The shortest decimal [d * 10^q] that [float] reads back as
    [S754_finite false m e], trying [k], [k + 1], ... significant digits and
    at each length the nearest decimal first; 17 digits always suffice. *)
Fixpoint shortest_decimal (fuel : nat) (m : positive) (e : Z) (n10 k : Z) : Z * Z :=
  let q := n10 - k in
  let '(num, den) := scale10 (fraction_of m e) q in
  let lo := num / den in
  let r := num mod den in
  let '(near, far) := if 2 * r <=? den then (lo, lo + 1) else (lo + 1, lo) in
  match fuel with
  | O => (near, q)
  | S fuel' =>
      if float_eqb (float_of_decimal near q) (S754_finite false m e) then (near, q)
      else if float_eqb (float_of_decimal far q) (S754_finite false m e) then (far, q)
      else shortest_decimal fuel' m e n10 (k + 1)
  end.

Definition str_take (n : Z) (s : string) : string := String.substring 0 (Z.to_nat n) s.
Definition str_drop (n : Z) (s : string) : string :=
  String.substring (Z.to_nat n) (String.length s - Z.to_nat n) s.

(** [repr] of a positive finite float: the shortest digits, in positional
    notation with at least one fractional digit when the decimal point falls
    in [(-4, 16]], in exponent notation otherwise. *)
Definition repr_finite (m : positive) (e : Z) : string :=
  let est := (Z.pos (digits2_pos m) + e - 1) * 30103 / 100000 in
  let n10 := decimal_exponent 4 (fraction_of m e) est in
  let '(d, q) := shortest_decimal 16 m e n10 1 in
  let '(d, q) := strip_zeros 17 d q in
  let ds := str_of_int d in
  let nd := Z.of_nat (String.length ds) in
  let decpt := nd + q in
  if (decpt <=? -4) || (16 <? decpt) then
    let x := decpt - 1 in
    let xs := str_of_int (Z.abs x) in
    str_take 1 ds +:+ (if 1 <? nd then "." +:+ str_drop 1 ds else "")
      +:+ "e" +:+ (if x <? 0 then "-" else "+")
      +:+ (if Z.abs x <? 10 then "0" +:+ xs else xs)
  else if decpt <=? 0 then "0." +:+ zeros (- decpt) +:+ ds
  else if decpt <? nd then str_take decpt ds +:+ "." +:+ str_drop decpt ds
  else ds +:+ zeros (decpt - nd) +:+ ".0".

Definition float_repr (f : float) : string :=
  match f with
  | S754_nan => "nan"
  | S754_infinity s => if s then "-inf" else "inf"
  | S754_zero s => if s then "-0.0" else "0.0"
  | S754_finite s m e => (if s then "-" else "") +:+ repr_finite m e
  end.

(** [str(v)], which is also what an f-string puts in place of [{v}]. *)
Definition str (v : val) : string :=
  match v with
  | VStr s => s
  | VInt z => str_of_int z
  | VFloat f => float_repr f
  end.

(** [print(v)] writes [str(v)] and a newline. *)
Definition print (v : val) : M unit := fun st =>
  (Ok tt, State (heap st) (stdout st +:+ str v +:+ newline)).

(** The built-in [sum] over a list of [int]s: a left fold from [0]. *)
Definition sum (numbers : list Z) : Z := fold_left Z.add numbers 0.

(** *** Classes, modules and [import] *)

(** Calling a class: a fresh object, then its [__init__]. *)
Definition instantiate (init : loc -> M unit) : M loc :=
  self ← alloc; init self;; mret self.

(** A class, as far as the two files use one: what calling it does, its
    methods of one argument beside [self], and its static methods over a
    list of [int]s. *)
Record pyclass : Type := PyClass {
  new : list val -> M loc;
  methods : gmap string (loc -> val -> M val);
  staticmethods : gmap string (list Z -> M val)
}.

(** What a top-level name of a module is bound to. *)
Inductive pyobj : Type :=
| Function1 (f : val -> M val)
| Function2 (f : val -> val -> M val)
| Class (c : pyclass).

(** The modules [import] can find, each with its top-level names. *)
Definition modules : Type := gmap string (gmap string pyobj).

(** One name of [from module import name, ...]. *)
Definition import_from (mods : modules) (module name : string) : M pyobj :=
  match mods !! module with
  | None => raise (ModuleNotFoundError module)
  | Some ns =>
      match ns !! name with
      | Some o => mret o
      | None => raise (ImportError module name)
      end
  end.

Definition call1 (o : pyobj) (x : val) : M val :=
  match o with
  | Function1 f => f x
  | _ => raise TypeError
  end.

Definition call2 (o : pyobj) (x y : val) : M val :=
  match o with
  | Function2 f => f x y
  | _ => raise TypeError
  end.

Definition call_class (o : pyobj) (args : list val) : M loc :=
  match o with
  | Class c => new c args
  | _ => raise TypeError
  end.

(** [self.name(x)], for [self] an instance of the class [o]. *)
Definition call_method (o : pyobj) (name : string) (self : loc) (x : val) : M val :=
  match o with
  | Class c =>
      match methods c !! name with
      | Some f => f self x
      | None => raise (AttributeError name)
      end
  | _ => raise (AttributeError name)
  end.

(** [o.name(numbers)], for [o] a class and [name] one of its static methods. *)
Definition call_static (o : pyobj) (name : string) (numbers : list Z) : M val :=
  match o with
  | Class c =>
      match staticmethods c !! name with
      | Some f => f numbers
      | None => raise (AttributeError name)
      end
  | _ => raise (AttributeError name)
  end.

End Py.

Import Py.

(** ** redherring.py *)

Module redherring.

(** [def greet(name): return f"Hello, {name}!"] *)
Definition greet (name : val) : M val :=
  mret (VStr ("Hello, " +:+ str name +:+ "!")).

Module Redherring.

(** [def __init__(self, greeting): self.greeting = greeting] *)
Definition __init__ (self : loc) (greeting : val) : M unit :=
  setattr self "greeting" greeting.

(** [def greet_person(self, name): return f"{self.greeting}, {name}!"] *)
Definition greet_person (self : loc) (name : val) : M val :=
  greeting ← getattr self "greeting";
  mret (VStr (str greeting +:+ ", " +:+ str name +:+ "!")).

(** [Redherring(greeting)] *)
Definition __call__ (greeting : val) : M loc :=
  instantiate (fun self => __init__ self greeting).

Definition class : pyclass := {|
  new := fun args =>
    match args with
    | [greeting] => __call__ greeting
    | _ => raise TypeError
    end;
  methods := {[ "greet_person" := greet_person ]};
  staticmethods := ∅
|}.

End Redherring.

(** [def calculate_discount(amount: int, percent: int) -> float:
       return amount * (percent / 100)] *)
Definition calculate_discount (amount percent : val) : M val :=
  rate ← lift (truediv percent (VInt 100));
  lift (mul amount rate).

Module ArrayProcessor.

(** [@staticmethod def sum_numbers(numbers: list[int]) -> int:
       return sum(numbers)] *)
Definition sum_numbers (numbers : list Z) : M val :=
  mret (VInt (sum numbers)).

Definition class : pyclass := {|
  new := fun args =>
    match args with
    | [] => instantiate (fun _ => mret tt)
    | _ => raise TypeError
    end;
  methods := ∅;
  staticmethods := {[ "sum_numbers" := sum_numbers ]}
|}.

End ArrayProcessor.

(** The top-level names of the module. *)
Definition namespace : gmap string pyobj :=
  {[ "greet" := Function1 greet;
     "Redherring" := Class Redherring.class;
     "calculate_discount" := Function2 calculate_discount;
     "ArrayProcessor" := Class ArrayProcessor.class ]}.

End redherring.

(** ** main.py *)

Module main.

Section script.

Variable mods : modules.

(** [def run_greeting_examples(): ...], over the two globals it reads. *)
Definition run_greeting_examples (greet Greeter : pyobj) : M unit :=
  message1 ← call1 greet (VStr "World");
  print message1;;
  greeter_instance ← call_class Greeter [VStr "Hi"];
  message2 ← call_method Greeter "greet_person" greeter_instance (VStr "Alice");
  print message2.

(** The script, top to bottom. *)
Definition script : M unit :=
  greet ← import_from mods "greeter" "greet";
  Greeter ← import_from mods "greeter" "Greeter";
  calculate_discount ← import_from mods "greeter" "calculate_discount";
  ArrayProcessor ← import_from mods "greeter" "ArrayProcessor";
  run_greeting_examples greet Greeter;;
  message3 ← call2 calculate_discount (VInt 200) (VInt 15);
  print message3;;
  result ← call_static ArrayProcessor "sum_numbers" [1; 2; 3; 4; 5];
  print result.

End script.

(** The modules of the repository that [import] can find beside the
    script itself. *)
Definition repository : modules := {[ "redherring" := redherring.namespace ]}.

(** A fresh interpreter: no objects, nothing written. *)
Definition initial : state := State ∅ "".

End main.

(** ** Vocabulary of the properties *)

Import redherring.

(** The arithmetic sum of a sequence of integers. *)
Fixpoint total (numbers : list Z) : Z :=
  match numbers with
  | [] => 0
  | n :: rest => n + total rest
  end.

(** The greeting prefix an instance holds, if any. *)
Definition stored_prefix (st : state) (self : loc) : option val :=
  d ← heap st !! self; d !! "greeting".

(** A greeting instance constructed with [prefix], then asked to greet
    [name]. *)
Definition greeting_instance_greets (prefix name : val) : M val :=
  self ← Redherring.__call__ prefix; Redherring.greet_person self name.

(** The calls a client of [redherring.py] can make. *)
Inductive call : Type :=
| CallGreet (name : val)
| CallRedherring (greeting : val)
| CallGreetPerson (self : loc) (name : val)
| CallDiscount (amount percent : val)
| CallSum (numbers : list Z).

Definition perform (c : call) : M unit :=
  match c with
  | CallGreet name => greet name;; mret tt
  | CallRedherring greeting => Redherring.__call__ greeting;; mret tt
  | CallGreetPerson self name => Redherring.greet_person self name;; mret tt
  | CallDiscount amount percent => calculate_discount amount percent;; mret tt
  | CallSum numbers => ArrayProcessor.sum_numbers numbers;; mret tt
  end.

(** The state after a sequence of calls, whether they return or raise. *)
Definition perform_all (cs : list call) (st : state) : state :=
  fold_left (fun st c => (run (perform c) st).2) cs st.

(** [greet_person] invoked once per name, in order. *)
Definition greet_each (self : loc) (names : list val) : list call :=
  map (CallGreetPerson self) names.

(** The binary64 number [30.0]. *)
Definition thirty : float := S754_finite false 8444249301319680 (-48).

(** The four lines of the calling script. *)
Definition four_lines : string :=
  "Hello, World!" +:+ newline +:+ "Hi, Alice!" +:+ newline
    +:+ "30.0" +:+ newline +:+ "15" +:+ newline.

(** A module table in which [greeter] names the operations of
    [redherring.py], the class under the name [Greeter]. *)
Definition greeter_resolves (mods : modules) : Prop :=
  exists ns : gmap string pyobj,
    mods !! "greeter" = Some ns
    /\ ns !! "greet" = Some (Function1 greet)
    /\ ns !! "Greeter" = Some (Class Redherring.class)
    /\ ns !! "calculate_discount" = Some (Function2 calculate_discount)
    /\ ns !! "ArrayProcessor" = Some (Class ArrayProcessor.class).

(** [redherring.py] under the file name [greeter.py] and with its class
    renamed to [Greeter]. *)
Definition renamed : modules :=
  {[ "greeter" := <["Greeter" := Class Redherring.class]> namespace ]}.

(** *** Binary64 numbers as rationals *)

Definition pow2 (e : Z) : Q := (2 ^ e)%Q.

(** The unit roundoff of binary64. *)
Definition roundoff : Q := pow2 (- prec).

(** The relative tolerance of a discount: four units of roundoff. *)
Definition tolerance : Q := pow2 (-51).

(** The value of a mantissa and an exponent. *)
Definition dyadic (m e : Z) : Q := (inject_Z m * pow2 e)%Q.

Definition is_finite (f : float) : bool :=
  match f with
  | S754_zero _ | S754_finite _ _ _ => true
  | _ => false
  end.

(** The rational number a finite float stands for. *)
Definition B2Q (f : float) : Q :=
  match f with
  | S754_finite s m e => if s then (- dyadic (Z.pos m) e)%Q else dyadic (Z.pos m) e
  | _ => 0%Q
  end.

(** The rational number an [int] or a finite [float] stands for. *)
Definition num_value (v : val) : option Q :=
  match v with
  | VInt z => Some (inject_Z z)
  | VFloat f => if is_finite f then Some (B2Q f) else None
  | VStr _ => None
  end.

(** The binary64 number [100.0]. *)
Definition hundred : float := S754_finite false 7036874417766400 (-46).

(** Where [y] lies from the integer [m] to [m + 1]: on [m], below the
    middle, on the middle, or above it. *)
Definition located (y : Q) (m : Z) (l : location) : Prop :=
  match l with
  | loc_Exact => (y == inject_Z m)%Q
  | loc_Inexact Lt => (inject_Z m < y /\ y < inject_Z m + (1 # 2))%Q
  | loc_Inexact Eq => (y == inject_Z m + (1 # 2))%Q
  | loc_Inexact Gt => (inject_Z m + (1 # 2) < y /\ y < inject_Z m + 1)%Q
  end.

(** [f] is [x] rounded: zero for zero, and for a positive [x] a positive
    float within [roundoff] of it; [normal] asks for a full mantissa as well. *)
Definition rounds (normal : bool) (x : Q) (f : float) : Prop :=
  ((x == 0)%Q /\ exists s : bool, f = S754_zero s)
  \/ ((0 < x)%Q
      /\ exists (m : positive) (e : Z),
           f = S754_finite false m e
           /\ (normal = true -> Z.pos (digits2_pos m) = prec)
           /\ (Qabs (dyadic (Z.pos m) e - x) <= roundoff * x)%Q).

Ltac split_ands :=
  repeat match goal with
         | H : _ /\ _ |- _ => destruct H
         end.

(** *** Further vocabulary *)


(** The names [main.py] imports, in the order of the [import]. *)
Definition imported_names : list string :=
  ["greet"; "Greeter"; "calculate_discount"; "ArrayProcessor"].

(** The first imported name a module does not bind. *)
Definition first_missing (ns : gmap string pyobj) : option string :=
  List.find (fun name => match ns !! name with None => true | Some _ => false end)
    imported_names.

(** ** The Python fragment on known values *)

(** [repr] of floats, as CPython prints them. *)
Example float_repr_examples :
  map float_repr
    [float_of_decimal 1 (-1); float_of_decimal 15 (-1); float_of_decimal 30 0;
     float_of_decimal 1 15; float_of_decimal 1 16; float_of_decimal 1 (-4);
     float_of_decimal 1 (-5); float_of_decimal 5 (-324);
     float_of_decimal 17976931348623157 292; float_of_decimal 9007199254740993 0;
     SFadd prec emax (float_of_decimal 1 (-1)) (float_of_decimal 2 (-1));
     S754_zero true; S754_infinity false]
  = ["0.1"; "1.5"; "30.0"; "1000000000000000.0"; "1e+16"; "0.0001"; "1e-05";
     "5e-324"; "1.7976931348623157e+308"; "9007199254740992.0";
     "0.30000000000000004"; "-0.0"; "inf"].
Proof. vm_compute. reflexivity. Qed.

(** [1 / 3], [0 / -5], [1 / 0], [10**400 / 1] and [2 * 0.5]. *)
Example truediv_mul_examples :
  truediv (VInt 1) (VInt 3) = Ok (VFloat (float_of_decimal 3333333333333333 (-16)))
  /\ truediv (VInt 0) (VInt (-5)) = Ok (VFloat (S754_zero true))
  /\ truediv (VInt 1) (VInt 0) = Raise ZeroDivisionError
  /\ truediv (VInt (10 ^ 400)) (VInt 1) = Raise OverflowError
  /\ mul (VInt 2) (VFloat (float_of_decimal 5 (-1))) = Ok (VFloat (float_of_decimal 1 0))
  /\ mul (VStr "ab") (VFloat (float_of_decimal 5 (-1))) = Raise TypeError.
Proof. repeat split; vm_compute; reflexivity. Qed.

(** ** Greetings *)

Lemma run_ret {A} (a : A) (st : state) : run (mret a) st = (Ok a, st).
Proof. reflexivity. Qed.

Lemma run_bind {A B} (c : M A) (k : A -> M B) (st : state) :
  run (c ≫= k) st =
  match run c st with
  | (Ok a, st') => run (k a) st'
  | (Raise e, st') => (Raise e, st')
  end.
Proof. reflexivity. Qed.

Lemma greet_spec (name : val) (st : state) :
  run (greet name) st = (Ok (VStr ("Hello, " +:+ str name +:+ "!")), st).
Proof. reflexivity. Qed.

(** C1. For every name string [n], [greet(n)] returns exactly ["Hello, "]
    followed by [n] followed by ["!"], in every state and leaving it as it
    was; [greet("World")] returns exactly ["Hello, World!"]. *)
Theorem greet_returns_hello_name :
  (forall (n : string) (st : state),
     run (greet (VStr n)) st = (Ok (VStr ("Hello, " +:+ n +:+ "!")), st))
  /\ (forall st : state,
        run (greet (VStr "World")) st = (Ok (VStr "Hello, World!"), st)).
Proof.
  split; intros; apply greet_spec.
Qed.

Lemma fresh_not_allocated (st : state) : heap st !! fresh (dom (heap st)) = None.
Proof.
  apply not_elem_of_dom. apply is_fresh.
Qed.

(** Calling the class allocates the fresh identity and stores the argument
    under [greeting]. *)
Lemma Redherring_call_spec (greeting : val) (st : state) :
  run (Redherring.__call__ greeting) st =
  (Ok (fresh (dom (heap st))),
   State (<[fresh (dom (heap st)) := {[ "greeting" := greeting ]}]> (heap st)) (stdout st)).
Proof.
  unfold Redherring.__call__, instantiate, Redherring.__init__, alloc, setattr, run.
  unfold mbind, M_bind, mret, M_ret. cbn [heap stdout].
  rewrite lookup_insert_eq. cbn [heap stdout].
  rewrite insert_insert_eq. rewrite insert_empty. reflexivity.
Qed.

Lemma greet_person_spec (self : loc) (name greeting : val) (st : state) :
  stored_prefix st self = Some greeting ->
  run (Redherring.greet_person self name) st =
  (Ok (VStr (str greeting +:+ ", " +:+ str name +:+ "!")), st).
Proof.
  unfold stored_prefix, Redherring.greet_person, getattr, run.
  unfold mbind at 2, M_bind.
  destruct (heap st !! self) as [d|]; cbn; [|discriminate].
  intros ->. reflexivity.
Qed.

Lemma stored_prefix_after_call (greeting : val) (st : state) :
  stored_prefix (run (Redherring.__call__ greeting) st).2 (fresh (dom (heap st)))
  = Some greeting.
Proof.
  rewrite Redherring_call_spec. unfold stored_prefix. cbn [snd heap].
  rewrite lookup_insert_eq. cbn. apply lookup_singleton_eq.
Qed.

Lemma greeting_instance_greets_spec (prefix name : val) (st : state) :
  (run (greeting_instance_greets prefix name) st).1
  = Ok (VStr (str prefix +:+ ", " +:+ str name +:+ "!")).
Proof.
  unfold greeting_instance_greets. rewrite run_bind.
  pose proof (stored_prefix_after_call prefix st) as H.
  rewrite Redherring_call_spec in *. cbn [snd] in H.
  rewrite (greet_person_spec _ _ _ _ H). reflexivity.
Qed.

(** C2. For every prefix string [p] and name string [n], an instance
    constructed with [p] and asked to [greet_person(n)] returns exactly [p]
    followed by [", "], [n] and ["!"]; constructed with ["Hi"] and invoked
    with ["Alice"] it returns exactly ["Hi, Alice!"]. *)
Theorem greet_person_returns_prefix_name :
  (forall (p n : string) (st : state),
     (run (greeting_instance_greets (VStr p) (VStr n)) st).1
     = Ok (VStr (p +:+ ", " +:+ n +:+ "!")))
  /\ (forall st : state,
        (run (greeting_instance_greets (VStr "Hi") (VStr "Alice")) st).1
        = Ok (VStr "Hi, Alice!")).
Proof.
  split; intros; apply greeting_instance_greets_spec.
Qed.

(** C9. For every name string [n], [greet(n)] returns the same string as an
    instance constructed with the prefix ["Hello"] and asked to
    [greet_person(n)]. *)
Theorem greet_is_greet_person_of_Hello (n : string) (st : state) :
  (run (greet (VStr n)) st).1
  = (run (greeting_instance_greets (VStr "Hello") (VStr n)) st).1.
Proof.
  rewrite greet_spec, greeting_instance_greets_spec. reflexivity.
Qed.

(** ** Summation *)

Lemma fold_add_total (numbers : list Z) (start : Z) :
  fold_left Z.add numbers start = start + total numbers.
Proof.
  revert start. induction numbers as [|n rest IH]; intros start; cbn [fold_left total].
  - lia.
  - rewrite IH. lia.
Qed.

Lemma sum_total (numbers : list Z) : sum numbers = total numbers.
Proof. unfold sum. rewrite fold_add_total. lia. Qed.

Lemma total_app (xs ys : list Z) : total (xs ++ ys) = total xs + total ys.
Proof.
  induction xs as [|x xs IH]; cbn [app total]; [reflexivity|]. rewrite IH. lia.
Qed.

Lemma total_Permutation (xs ys : list Z) : Permutation xs ys -> total xs = total ys.
Proof.
  induction 1; cbn [total]; lia.
Qed.

Lemma sum_numbers_spec (numbers : list Z) (st : state) :
  run (ArrayProcessor.sum_numbers numbers) st = (Ok (VInt (total numbers)), st).
Proof.
  unfold ArrayProcessor.sum_numbers. rewrite sum_total. reflexivity.
Qed.

(** C3. For every sequence of integers, [sum_numbers] returns the
    arithmetic sum of its elements, [0] for the empty sequence, and exactly
    [15] for [[1, 2, 3, 4, 5]]. *)
Theorem sum_numbers_returns_total :
  (forall (numbers : list Z) (st : state),
     run (ArrayProcessor.sum_numbers numbers) st = (Ok (VInt (total numbers)), st))
  /\ (forall st : state, run (ArrayProcessor.sum_numbers []) st = (Ok (VInt 0), st))
  /\ (forall st : state,
        run (ArrayProcessor.sum_numbers [1; 2; 3; 4; 5]) st = (Ok (VInt 15), st)).
Proof.
  repeat split; intros; apply sum_numbers_spec.
Qed.

(** C10. [sum_numbers] takes concatenation to addition:
    [sum_numbers(xs + ys)] is [sum_numbers(xs) + sum_numbers(ys)]; and it
    returns the same on any two orderings of a sequence. *)
Theorem sum_numbers_app_and_permutation :
  (forall (xs ys : list Z) (st : state),
     exists a b : Z,
       run (ArrayProcessor.sum_numbers xs) st = (Ok (VInt a), st)
       /\ run (ArrayProcessor.sum_numbers ys) st = (Ok (VInt b), st)
       /\ run (ArrayProcessor.sum_numbers (xs ++ ys)) st = (Ok (VInt (a + b)), st))
  /\ (forall (xs ys : list Z) (st : state),
        Permutation xs ys ->
        run (ArrayProcessor.sum_numbers xs) st = run (ArrayProcessor.sum_numbers ys) st).
Proof.
  split.
  - intros xs ys st. exists (total xs), (total ys).
    rewrite !sum_numbers_spec, total_app. auto.
  - intros xs ys st Hperm. rewrite !sum_numbers_spec.
    rewrite (total_Permutation xs ys Hperm). reflexivity.
Qed.

Lemma sum_numbers_app_and_permutation_witness :
  Permutation [3; 1; 2] [1; 2; 3]
  /\ run (ArrayProcessor.sum_numbers [3; 1; 2]) main.initial
     = run (ArrayProcessor.sum_numbers [1; 2; 3]) main.initial.
Proof.
  assert (Hperm : Permutation [3; 1; 2] [1; 2; 3]).
  { exact (Permutation_cons_app [1; 2] [] 3 (Permutation_refl [1; 2])). }
  split; [exact Hperm|].
  exact (proj2 sum_numbers_app_and_permutation [3; 1; 2] [1; 2; 3] main.initial Hperm).
Defined.

(** ** The discount of the calling script *)

Lemma calculate_discount_spec (amount percent : val) (st : state) :
  run (calculate_discount amount percent) st
  = (rate ← truediv percent (VInt 100); mul amount rate, st).
Proof.
  unfold calculate_discount, lift, run. unfold mbind at 1, M_bind.
  destruct (truediv percent (VInt 100)); reflexivity.
Qed.

(** C5. [calculate_discount(200, 15)] returns exactly the binary64 number
    [30.0]: the number [30 * 2^48 * 2^-48], which is what the literal
    [30.0] denotes and what prints as [30.0]. *)
Theorem calculate_discount_200_15 :
  (forall st : state,
     run (calculate_discount (VInt 200) (VInt 15)) st = (Ok (VFloat thirty), st))
  /\ thirty = S754_finite false (Z.to_pos (30 * 2 ^ 48)) (-48)
  /\ float_of_decimal 300 (-1) = thirty
  /\ str (VFloat thirty) = "30.0".
Proof.
  split; [|split; [|split]; vm_compute; reflexivity].
  intros st. rewrite calculate_discount_spec.
  replace (rate ← truediv (VInt 15) (VInt 100); mul (VInt 200) rate)
    with (Ok (VFloat thirty)) by (vm_compute; reflexivity).
  reflexivity.
Qed.

(** ** State: the stored prefix and the absence of side effects *)

Lemma greet_person_state (self : loc) (name : val) (st : state) :
  (run (Redherring.greet_person self name) st).2 = st.
Proof.
  unfold Redherring.greet_person, getattr, run. unfold mbind, M_bind.
  destruct (heap st !! self) as [d|]; [|reflexivity].
  destruct (d !! "greeting"); reflexivity.
Qed.

Lemma greet_person_result (self : loc) (name : val) (st : state) :
  (run (Redherring.greet_person self name) st).1
  = match stored_prefix st self with
    | Some greeting => Ok (VStr (str greeting +:+ ", " +:+ str name +:+ "!"))
    | None => Raise (AttributeError "greeting")
    end.
Proof.
  unfold stored_prefix, Redherring.greet_person, getattr, run.
  unfold mbind at 1, M_bind.
  destruct (heap st !! self) as [d|]; cbn; [|reflexivity].
  destruct (d !! "greeting"); reflexivity.
Qed.

Lemma calculate_discount_state (amount percent : val) (st : state) :
  (run (calculate_discount amount percent) st).2 = st.
Proof. rewrite calculate_discount_spec. reflexivity. Qed.

(** A call leaves every object that exists as it is. *)
Lemma perform_frame (c : call) (st : state) (self : loc) :
  is_Some (heap st !! self) ->
  heap (run (perform c) st).2 !! self = heap st !! self.
Proof.
  intros Hself. destruct c as [name|greeting|self' name|amount percent|numbers];
    unfold perform; rewrite run_bind.
  - rewrite greet_spec. reflexivity.
  - rewrite Redherring_call_spec. cbn [run mret M_ret snd heap].
    apply lookup_insert_ne. intros Heq.
    rewrite <- Heq, fresh_not_allocated in Hself. destruct Hself; discriminate.
  - pose proof (greet_person_state self' name st) as Hst.
    destruct (run (Redherring.greet_person self' name) st) as [[v|e] st'];
      cbn in Hst |- *; subst st'; reflexivity.
  - rewrite calculate_discount_spec.
    destruct (rate ← truediv percent (VInt 100); mul amount rate); reflexivity.
  - rewrite sum_numbers_spec. reflexivity.
Qed.

Lemma perform_all_frame (cs : list call) (st : state) (self : loc) :
  is_Some (heap st !! self) ->
  heap (perform_all cs st) !! self = heap st !! self.
Proof.
  revert st. induction cs as [|c cs IH]; intros st Hself; [reflexivity|].
  unfold perform_all. cbn [fold_left]. fold (perform_all cs (run (perform c) st).2).
  pose proof (perform_frame c st self Hself) as Hc.
  rewrite IH; [exact Hc|]. rewrite Hc. exact Hself.
Qed.

Lemma greet_each_state (self : loc) (names : list val) (st : state) :
  perform_all (greet_each self names) st = st.
Proof.
  revert st. induction names as [|name names IH]; intros st; [reflexivity|].
  unfold perform_all, greet_each. cbn [map fold_left].
  fold (greet_each self names).
  fold (perform_all (greet_each self names) (run (perform (CallGreetPerson self name)) st).2).
  assert (Hst : (run (perform (CallGreetPerson self name)) st).2 = st).
  { unfold perform. rewrite run_bind.
    pose proof (greet_person_state self name st) as Hst.
    destruct (run (Redherring.greet_person self name) st) as [[v|e] st'];
      cbn in Hst |- *; exact Hst. }
  rewrite Hst. apply IH.
Qed.

(** C6. The prefix an instance holds is the construction argument, and it
    stays so: [greet_person], invoked any number of times with any names,
    leaves the whole state as it is, and no sequence of calls of the
    operations of the module, constructions of further instances included,
    changes the prefix the instance holds. *)
Theorem stored_prefix_is_immutable (p : val) (st : state) :
  let self := fresh (dom (heap st)) in
  let st1 := (run (Redherring.__call__ p) st).2 in
  (run (Redherring.__call__ p) st).1 = Ok self
  /\ stored_prefix st1 self = Some p
  /\ (forall names : list val, perform_all (greet_each self names) st1 = st1)
  /\ (forall cs : list call, stored_prefix (perform_all cs st1) self = Some p).
Proof.
  intros self st1. pose proof (stored_prefix_after_call p st) as Hp.
  fold self in Hp. fold st1 in Hp.
  split; [subst st1; rewrite Redherring_call_spec; reflexivity|].
  split; [exact Hp|]. split; [intros names; apply greet_each_state|].
  intros cs. unfold stored_prefix in *.
  rewrite perform_all_frame; [exact Hp|].
  destruct (heap st1 !! self); [eauto|discriminate].
Qed.

(** C8. Each of the four operations is deterministic and free of side
    effects: an invocation leaves the state as it found it, and two
    invocations with equal arguments, in whatever two states (for
    [greet_person]: on instances holding equal prefixes), return equal
    results. *)
Theorem operations_deterministic_and_pure :
  (forall (name : val) (st st' : state),
     (run (greet name) st).2 = st
     /\ (run (greet name) st).1 = (run (greet name) st').1)
  /\ (forall (self self' : loc) (name : val) (st st' : state),
        (run (Redherring.greet_person self name) st).2 = st
        /\ (stored_prefix st self = stored_prefix st' self' ->
            (run (Redherring.greet_person self name) st).1
            = (run (Redherring.greet_person self' name) st').1))
  /\ (forall (amount percent : val) (st st' : state),
        (run (calculate_discount amount percent) st).2 = st
        /\ (run (calculate_discount amount percent) st).1
           = (run (calculate_discount amount percent) st').1)
  /\ (forall (numbers : list Z) (st st' : state),
        (run (ArrayProcessor.sum_numbers numbers) st).2 = st
        /\ (run (ArrayProcessor.sum_numbers numbers) st).1
           = (run (ArrayProcessor.sum_numbers numbers) st').1).
Proof.
  split; [|split; [|split]].
  - intros name st st'. rewrite !greet_spec. split; reflexivity.
  - intros self self' name st st'. split; [apply greet_person_state|].
    intros Hprefix. rewrite !greet_person_result, Hprefix. reflexivity.
  - intros amount percent st st'. split; [apply calculate_discount_state|].
    rewrite !calculate_discount_spec. reflexivity.
  - intros numbers st st'. rewrite !sum_numbers_spec. split; reflexivity.
Qed.

Lemma operations_deterministic_and_pure_witness :
  let st := (run (Redherring.__call__ (VStr "Hi")) main.initial).2 in
  let st' := (run (Redherring.__call__ (VStr "Hi")) st).2 in
  stored_prefix st 1%positive = stored_prefix st' 2%positive
  /\ (run (Redherring.greet_person 1%positive (VStr "Alice")) st).1
     = (run (Redherring.greet_person 2%positive (VStr "Alice")) st').1.
Proof.
  intros st st'.
  assert (Hprefix : stored_prefix st 1%positive = stored_prefix st' 2%positive)
    by (vm_compute; reflexivity).
  split; [exact Hprefix|].
  exact (proj2 (proj1 (proj2 operations_deterministic_and_pure)
                  1%positive 2%positive (VStr "Alice") st st') Hprefix).
Defined.

(** ** The calling script *)

Lemma import_from_spec (mods : modules) (ns : gmap string pyobj)
    (module name : string) (o : pyobj) (st : state) :
  mods !! module = Some ns -> ns !! name = Some o ->
  run (import_from mods module name) st = (Ok o, st).
Proof.
  intros Hm Hn. unfold import_from. rewrite Hm, Hn. reflexivity.
Qed.

Lemma print_spec (v : val) (st : state) :
  run (print v) st = (Ok tt, State (heap st) (stdout st +:+ str v +:+ newline)).
Proof. reflexivity. Qed.

Lemma append_assoc (s t u : string) : (s +:+ t) +:+ u = s +:+ (t +:+ u).
Proof.
  induction s as [|c s IH]; [reflexivity|].
  change (String c ((s +:+ t) +:+ u) = String c (s +:+ t +:+ u)).
  rewrite IH. reflexivity.
Qed.

(** C7, as the code has it. Once [greeter] resolves to the operations of
    [redherring.py], the script invokes [greet("World")], an instance
    constructed with ["Hi"] on ["Alice"], [calculate_discount(200, 15)] and
    [sum_numbers([1, 2, 3, 4, 5])], and writes to the standard output, in
    order, the lines [Hello, World!], [Hi, Alice!], [30.0] and [15]. *)
Theorem script_prints_four_lines (mods : modules) (st : state) :
  greeter_resolves mods ->
  exists st' : state,
    run (main.script mods) st = (Ok tt, st')
    /\ stdout st' = stdout st +:+ four_lines.
Proof.
  intros (ns & Hm & Hgreet & HGreeter & Hdiscount & HProcessor).
  unfold main.script.
  rewrite run_bind, (import_from_spec _ _ _ _ _ _ Hm Hgreet).
  rewrite run_bind, (import_from_spec _ _ _ _ _ _ Hm HGreeter).
  rewrite run_bind, (import_from_spec _ _ _ _ _ _ Hm Hdiscount).
  rewrite run_bind, (import_from_spec _ _ _ _ _ _ Hm HProcessor).
  rewrite run_bind. unfold main.run_greeting_examples.
  rewrite run_bind. cbn [call1]. rewrite greet_spec.
  rewrite run_bind, print_spec. cbn [heap stdout].
  rewrite run_bind. cbn [call_class Redherring.class new].
  rewrite Redherring_call_spec. cbn [heap stdout].
  rewrite run_bind. cbn [call_method Redherring.class methods].
  rewrite lookup_singleton_eq.
  erewrite greet_person_spec;
    [|unfold stored_prefix; cbn [heap]; rewrite lookup_insert_eq; reflexivity].
  rewrite print_spec. cbn [heap stdout].
  rewrite run_bind. cbn [call2]. rewrite calculate_discount_spec.
  replace (rate ← truediv (VInt 15) (VInt 100); mul (VInt 200) rate)
    with (Ok (VFloat thirty)) by (vm_compute; reflexivity).
  rewrite run_bind, print_spec. cbn [heap stdout].
  rewrite run_bind. cbn [call_static ArrayProcessor.class staticmethods].
  rewrite lookup_singleton_eq, sum_numbers_spec, print_spec.
  eexists. split; [reflexivity|].
  cbn [stdout heap].
  replace (str (VFloat thirty)) with "30.0" by (vm_compute; reflexivity).
  unfold four_lines. cbn [str total].
  rewrite !append_assoc. reflexivity.
Qed.

Lemma script_prints_four_lines_witness :
  greeter_resolves renamed
  /\ exists st' : state,
       run (main.script renamed) main.initial = (Ok tt, st')
       /\ stdout st' = stdout main.initial +:+ four_lines.
Proof.
  assert (Hresolves : greeter_resolves renamed).
  { exists (<["Greeter" := Class Redherring.class]> namespace).
    repeat split; vm_compute; reflexivity. }
  split; [exact Hresolves|].
  exact (script_prints_four_lines renamed main.initial Hresolves).
Defined.

(** C7, as the claim has it, fails in the repository: no module is named
    [greeter], the [import] on the first line raises, and nothing is
    written. *)
Lemma script_raises_in_repository :
  run (main.script main.repository) main.initial
  = (Raise (ModuleNotFoundError "greeter"), main.initial)
  /\ stdout (run (main.script main.repository) main.initial).2 <> four_lines.
Proof.
  split; [vm_compute; reflexivity|].
  vm_compute. discriminate.
Qed.

(** ** Rounding in binary64 *)

Lemma pow2_pos e : (0 < pow2 e)%Q.
Proof. apply Qpower_0_lt. reflexivity. Qed.

Lemma pow2_add a b : (pow2 (a + b) == pow2 a * pow2 b)%Q.
Proof. apply Qpower_plus. discriminate. Qed.

Lemma pow2_0 : (pow2 0 == 1)%Q.
Proof. reflexivity. Qed.

Lemma pow2_1 : (pow2 1 == 2)%Q.
Proof. reflexivity. Qed.

Lemma pow2_m1 : (pow2 (-1) == 1 # 2)%Q.
Proof. reflexivity. Qed.

Lemma pow2_succ a : (pow2 (a + 1) == 2 * pow2 a)%Q.
Proof. rewrite pow2_add, pow2_1. ring. Qed.

Lemma pow2_le a b : a <= b -> (pow2 a <= pow2 b)%Q.
Proof. intros H. apply Qpower_le_compat_l; [exact H|]. discriminate. Qed.

Lemma pow2_lt a b : a < b -> (pow2 a < pow2 b)%Q.
Proof. intros H. apply Qpower_lt_compat_l; [exact H|]. reflexivity. Qed.

Lemma pow2_Z n : 0 <= n -> (inject_Z (2 ^ n) == pow2 n)%Q.
Proof. intros H. unfold pow2. rewrite Zpower_Qpower by exact H. reflexivity. Qed.

Lemma digits2_pos_bounds p :
  2 ^ (Z.pos (digits2_pos p) - 1) <= Z.pos p < 2 ^ Z.pos (digits2_pos p).
Proof.
  induction p as [p IH|p IH|]; cbn [digits2_pos].
  - rewrite Pos2Z.inj_succ, (Pos2Z.inj_xI p).
    replace (Z.succ (Z.pos (digits2_pos p)) - 1) with (Z.succ (Z.pos (digits2_pos p) - 1)) by lia.
    rewrite !Z.pow_succ_r by lia. lia.
  - rewrite Pos2Z.inj_succ, (Pos2Z.inj_xO p).
    replace (Z.succ (Z.pos (digits2_pos p)) - 1) with (Z.succ (Z.pos (digits2_pos p) - 1)) by lia.
    rewrite !Z.pow_succ_r by lia. lia.
  - cbn. lia.
Qed.

Lemma Zdigits2_bounds m :
  0 < m -> 2 ^ (Zdigits2 m - 1) <= m < 2 ^ Zdigits2 m.
Proof.
  destruct m as [|p|p]; try lia. intros _. apply digits2_pos_bounds.
Qed.

(** A number between two consecutive powers of two has that many digits. *)
Lemma Zdigits2_unique m d :
  2 ^ (d - 1) <= m < 2 ^ d -> 0 < d -> Zdigits2 m = d.
Proof.
  intros [Hlo Hhi] Hd.
  assert (Hm : 0 < m) by (pose proof (Z.pow_pos_nonneg 2 (d - 1)); lia).
  pose proof (Zdigits2_bounds m Hm) as [Hlo' Hhi'].
  assert (Hdm : 0 < Zdigits2 m) by (destruct m; cbn; lia).
  destruct (Z.lt_trichotomy (Zdigits2 m) d) as [Hlt|[Heq|Hgt]]; [|exact Heq|].
  - assert (2 ^ Zdigits2 m <= 2 ^ (d - 1)) by (apply Z.pow_le_mono_r; lia). lia.
  - assert (2 ^ d <= 2 ^ (Zdigits2 m - 1)) by (apply Z.pow_le_mono_r; lia). lia.
Qed.

Lemma inject_Z_xO p : (inject_Z (Z.pos p~0) == 2 * inject_Z (Z.pos p))%Q.
Proof. rewrite (Pos2Z.inj_xO p), inject_Z_mult. reflexivity. Qed.

Lemma inject_Z_xI p : (inject_Z (Z.pos p~1) == 2 * inject_Z (Z.pos p) + 1)%Q.
Proof. rewrite (Pos2Z.inj_xI p), inject_Z_plus, inject_Z_mult. reflexivity. Qed.

Lemma shr_1_located (y : Q) (mrs : shr_record) :
  0 <= shr_m mrs ->
  located y (shr_m mrs) (loc_of_shr_record mrs) ->
  0 <= shr_m (shr_1 mrs)
  /\ located (y * (1 # 2)) (shr_m (shr_1 mrs)) (loc_of_shr_record (shr_1 mrs)).
Proof.
  destruct mrs as [m r s]. cbn [shr_m]. intros Hm.
  destruct m as [|p|p]; [| |lia].
  - change (inject_Z 0) with 0%Q.
    destruct r, s; cbn -[inject_Z]; change (inject_Z 0) with 0%Q;
      intros H; (split; [lia|]); split_ands; try split; lra.
  - destruct p as [p|p|]; destruct r, s; cbn -[inject_Z];
      rewrite ?inject_Z_xO, ?inject_Z_xI;
      change (inject_Z 0) with 0%Q; change (inject_Z 1) with 1%Q;
      intros H; (split; [lia|]); split_ands; try split; lra.
Qed.

Lemma located_ext (y y' : Q) (m : Z) (l : location) :
  (y == y')%Q -> located y m l -> located y' m l.
Proof.
  intros Hy. destruct l as [|[| |]]; unfold located; rewrite Hy; trivial.
Qed.

Lemma pow2_opp_pos_xO n :
  (pow2 (- Z.pos n~0) == pow2 (- Z.pos n) * pow2 (- Z.pos n))%Q.
Proof.
  replace (- Z.pos n~0) with (- Z.pos n + - Z.pos n) by lia.
  apply pow2_add.
Qed.

Lemma pow2_opp_pos_xI n :
  (pow2 (- Z.pos n~1) == (1 # 2) * pow2 (- Z.pos n) * pow2 (- Z.pos n))%Q.
Proof.
  replace (- Z.pos n~1) with (-1 + (- Z.pos n + - Z.pos n)) by lia.
  rewrite !pow2_add, pow2_m1. ring.
Qed.

Lemma iter_shr_1_located (n : positive) :
  forall (y : Q) (mrs : shr_record),
    0 <= shr_m mrs ->
    located y (shr_m mrs) (loc_of_shr_record mrs) ->
    0 <= shr_m (SpecFloat.iter_pos shr_1 n mrs)
    /\ located (y * pow2 (- Z.pos n)) (shr_m (SpecFloat.iter_pos shr_1 n mrs))
         (loc_of_shr_record (SpecFloat.iter_pos shr_1 n mrs)).
Proof.
  induction n as [n IH|n IH|]; intros y mrs Hm Hloc; cbn [SpecFloat.iter_pos].
  - destruct (shr_1_located y mrs Hm Hloc) as [Hm1 Hloc1].
    destruct (IH _ _ Hm1 Hloc1) as [Hm2 Hloc2].
    destruct (IH _ _ Hm2 Hloc2) as [Hm3 Hloc3].
    split; [exact Hm3|]. revert Hloc3. apply located_ext.
    rewrite pow2_opp_pos_xI. ring.
  - destruct (IH _ _ Hm Hloc) as [Hm2 Hloc2].
    destruct (IH _ _ Hm2 Hloc2) as [Hm3 Hloc3].
    split; [exact Hm3|]. revert Hloc3. apply located_ext.
    rewrite pow2_opp_pos_xO. ring.
  - destruct (shr_1_located y mrs Hm Hloc) as [Hm1 Hloc1].
    split; [exact Hm1|]. revert Hloc1. apply located_ext.
    change (pow2 (-1)) with (1 # 2)%Q. reflexivity.
Qed.

Lemma shr_record_of_loc_m m l : shr_m (shr_record_of_loc m l) = m.
Proof. destruct l as [|[| |]]; reflexivity. Qed.

Lemma loc_of_shr_record_of_loc m l :
  loc_of_shr_record (shr_record_of_loc m l) = l.
Proof. destruct l as [|[| |]]; reflexivity. Qed.

(** Shifting right by [n] digits keeps track of where the number lies. *)
Lemma shr_located (x : Q) (m e n : Z) (l : location) :
  0 <= m -> 0 <= n ->
  located (x * pow2 (- e)) m l ->
  exists mrs : shr_record,
    shr (shr_record_of_loc m l) e n = (mrs, e + n)
    /\ 0 <= shr_m mrs
    /\ located (x * pow2 (- (e + n))) (shr_m mrs) (loc_of_shr_record mrs).
Proof.
  intros Hm Hn Hloc. destruct n as [|n|n]; [| |lia].
  - exists (shr_record_of_loc m l). cbn [shr].
    rewrite Z.add_0_r, shr_record_of_loc_m, loc_of_shr_record_of_loc. auto.
  - exists (SpecFloat.iter_pos shr_1 n (shr_record_of_loc m l)). cbn [shr].
    split; [reflexivity|].
    destruct (iter_shr_1_located n (x * pow2 (- e)) (shr_record_of_loc m l)) as [Hm' Hloc'].
    + rewrite shr_record_of_loc_m. exact Hm.
    + rewrite shr_record_of_loc_m, loc_of_shr_record_of_loc. exact Hloc.
    + split; [exact Hm'|]. revert Hloc'. apply located_ext.
      replace (- (e + Z.pos n)) with (- e + - Z.pos n) by lia.
      rewrite pow2_add. ring.
Qed.

(** Rounding to nearest, ties to even, moves by at most one half. *)
Lemma round_nearest_even_located (y : Q) (m : Z) (l : location) :
  located y m l ->
  (m <= round_nearest_even m l <= m + 1)
  /\ (Qabs (inject_Z (round_nearest_even m l) - y) <= 1 # 2)%Q.
Proof.
  intros Hloc. 
  assert (H1 : (inject_Z (m + 1) == inject_Z m + 1)%Q)
    by (rewrite inject_Z_plus; reflexivity).
  destruct l as [|[| |]]; cbn [round_nearest_even located] in *;
    try destruct (Z.even m); (split; [lia|]); apply Qabs_case; intros _;
    rewrite ?H1; split_ands; lra.
Qed.

Lemma pow2_cancel e : (pow2 (- e) * pow2 e == 1)%Q.
Proof. rewrite <- pow2_add. replace (- e + e) with 0 by lia. reflexivity. Qed.

Lemma pow2_scale_lt (x : Q) (e d : Z) :
  (x * pow2 (- e) < pow2 d)%Q -> (x < pow2 (d + e))%Q.
Proof.
  intros H. rewrite pow2_add.
  apply (Qmult_lt_r _ _ (pow2 (- e))); [apply pow2_pos|].
  rewrite <- Qmult_assoc, (Qmult_comm (pow2 e)), pow2_cancel, Qmult_1_r. exact H.
Qed.

Lemma pow2_scale_le (x : Q) (e d : Z) :
  (pow2 d <= x * pow2 (- e))%Q -> (pow2 (d + e) <= x)%Q.
Proof.
  intros H. rewrite pow2_add.
  apply (Qmult_le_r _ _ (pow2 (- e))); [apply pow2_pos|].
  rewrite <- Qmult_assoc, (Qmult_comm (pow2 e)), pow2_cancel, Qmult_1_r. exact H.
Qed.

Lemma located_floor (y : Q) (m : Z) (l : location) :
  located y m l -> (inject_Z m <= y /\ y < inject_Z m + 1)%Q.
Proof.
  destruct l as [|[| |]]; unfold located; intros H; split_ands; split; lra.
Qed.

Lemma inject_Z_succ m : (inject_Z (m + 1) == inject_Z m + 1)%Q.
Proof. rewrite inject_Z_plus. reflexivity. Qed.

(** An integer part of [d] digits puts the number in the binade of [d]. *)
Lemma located_digits (y : Q) (m : Z) (l : location) :
  0 < m -> located y m l ->
  (pow2 (Zdigits2 m - 1) <= y /\ y < pow2 (Zdigits2 m))%Q.
Proof.
  intros Hm Hloc. destruct (located_floor _ _ _ Hloc) as [Hlo Hhi].
  destruct (Zdigits2_bounds m Hm) as [Hdlo Hdhi].
  assert (Hd : 0 < Zdigits2 m) by (destruct m; cbn; lia).
  rewrite <- !pow2_Z by lia. split.
  - apply Qle_trans with (inject_Z m); [|exact Hlo].
    rewrite <- Zle_Qle. exact Hdlo.
  - apply Qlt_le_trans with (inject_Z m + 1)%Q; [exact Hhi|].
    rewrite <- inject_Z_succ, <- Zle_Qle. lia.
Qed.

(** And conversely. *)
Lemma located_bounds (y : Q) (m : Z) (l : location) (d : Z) :
  0 <= d -> located y m l ->
  (pow2 d <= y)%Q -> (y < pow2 (d + 1))%Q ->
  2 ^ d <= m < 2 ^ (d + 1).
Proof.
  intros Hd Hloc Hlo Hhi. destruct (located_floor _ _ _ Hloc) as [Hmlo Hmhi].
  rewrite <- pow2_Z in Hlo, Hhi by lia.
  split.
  - assert (H : (inject_Z (2 ^ d) < inject_Z (m + 1))%Q) by (rewrite inject_Z_succ; lra).
    rewrite <- Zlt_Qlt in H. lia.
  - rewrite Zlt_Qlt. lra.
Qed.

Lemma fexp_normal k : -1074 <= k - prec -> fexp prec emax k = k - prec.
Proof. unfold fexp, emin, prec, emax. lia. Qed.

Lemma binary_round_aux_normal (sx : bool) (m e : Z) (l : location) (x : Q) :
  0 < m ->
  located (x * pow2 (- e)) m l ->
  e <= Zdigits2 m + e - prec ->
  -1074 <= Zdigits2 m + e - prec ->
  exists (m' : positive) (e' : Z),
    binary_round_aux prec emax sx m e l
    = (if e' <=? emax - prec then S754_finite sx m' e' else S754_infinity sx)
    /\ Z.pos (digits2_pos m') = prec
    /\ Zdigits2 m + e - prec <= e' <= Zdigits2 m + e - prec + 1
    /\ (Qabs (inject_Z (Z.pos m') * pow2 e' - x) <= pow2 (Zdigits2 m + e - prec - 1))%Q.
Proof.
  intros Hm Hloc He Hk.
  set (k := Zdigits2 m + e) in *. set (e1 := k - prec) in *.
  destruct (shr_located x m e (e1 - e) l) as (mrs1 & Hshr & Hm1 & Hloc1);
    [lia|lia|exact Hloc|].
  replace (e + (e1 - e)) with e1 in * by lia.
  destruct (located_digits _ _ _ Hm Hloc) as [Hxlo Hxhi].
  (* the shifted integer part has exactly [prec] digits *)
  assert (Hy : (pow2 (prec - 1) <= x * pow2 (- e1) /\ x * pow2 (- e1) < pow2 (prec - 1 + 1))%Q).
  { assert (Heq : (x * pow2 (- e1) == x * pow2 (- e) * pow2 (- (e1 - e)))%Q).
    { rewrite <- Qmult_assoc, <- pow2_add. replace (- e + - (e1 - e)) with (- e1) by lia. reflexivity. }
    rewrite Heq. split.
    - replace (prec - 1) with ((Zdigits2 m - 1) + - (e1 - e)) by lia.
      rewrite pow2_add. apply Qmult_le_compat_r; [exact Hxlo|]. apply Qlt_le_weak, pow2_pos.
    - replace (prec - 1 + 1) with (Zdigits2 m + - (e1 - e)) by lia.
      rewrite pow2_add. apply Qmult_lt_compat_r; [apply pow2_pos|exact Hxhi]. }
  destruct Hy as [Hylo Hyhi].
  pose proof (located_bounds _ _ _ (prec - 1) ltac:(unfold prec; lia) Hloc1 Hylo Hyhi) as Hm1b.
  destruct (round_nearest_even_located _ _ _ Hloc1) as [Hm2 Hr].
  set (m1 := shr_m mrs1) in *. set (l1 := loc_of_shr_record mrs1) in *.
  set (m2 := round_nearest_even m1 l1) in *.
  unfold binary_round_aux, shr_fexp. fold k. rewrite (fexp_normal k) by (fold e1; lia).
  fold e1. rewrite Hshr. fold m1 l1 m2.
  assert (Hpow : 2 ^ (prec - 1 + 1) = 2 * 2 ^ (prec - 1)) by reflexivity.
  (* the error of the rounded integer, scaled back *)
  assert (Herr : (Qabs (inject_Z m2 * pow2 e1 - x) <= pow2 (e1 - 1))%Q).
  { assert (Hx : (inject_Z m2 * pow2 e1 - x == (inject_Z m2 - x * pow2 (- e1)) * pow2 e1)%Q).
    { transitivity (inject_Z m2 * pow2 e1 - x * (pow2 (- e1) * pow2 e1))%Q;
        [rewrite pow2_cancel|]; ring. }
    rewrite Hx, Qabs_Qmult, (Qabs_pos (pow2 e1)) by (apply Qlt_le_weak, pow2_pos).
    replace (e1 - 1) with (-1 + e1) by lia. rewrite pow2_add, pow2_m1.
    apply Qmult_le_compat_r; [exact Hr|]. apply Qlt_le_weak, pow2_pos. }
  destruct (Z.eq_dec m2 (2 ^ prec)) as [Hcarry|Hnocarry].
  - (* the mantissa rounded up to the next power of two *)
    exists (Z.to_pos (2 ^ (prec - 1))), (e1 + 1).
    rewrite Hcarry.
    replace (fexp prec emax (Zdigits2 (2 ^ prec) + e1) - e1) with 1
      by (change (Zdigits2 (2 ^ prec)) with 54; unfold fexp, emin, emax, prec in *; lia).
    split; [reflexivity|]. split; [reflexivity|]. split; [lia|].
    fold e1. rewrite Hcarry in Herr.
    assert (Hv : (inject_Z (Z.pos (Z.to_pos (2 ^ (prec - 1)))) * pow2 (e1 + 1)
                  == inject_Z (2 ^ prec) * pow2 e1)%Q).
    { rewrite pow2_succ. 
      change (inject_Z (Z.pos (Z.to_pos (2 ^ (prec - 1))))) with (inject_Z (2 ^ 52)).
      change (inject_Z (2 ^ prec)) with (2 * inject_Z (2 ^ 52))%Q. ring. }
    rewrite Hv. exact Herr.
  - assert (Hd2 : Zdigits2 m2 = prec).
    { apply Zdigits2_unique; [|unfold prec; lia].
      change (2 ^ prec) with (2 * 2 ^ (prec - 1)) in *. lia. }
    rewrite Hd2.
    replace (fexp prec emax (prec + e1) - e1) with 0
      by (unfold fexp, emin, emax, prec in *; lia).
    cbn [shr shr_record_of_loc shr_m].
    destruct m2 as [|p|p] eqn:Hp; [cbn in Hd2; discriminate Hd2| |cbn in Hm2; lia].
    exists p, e1. split; [reflexivity|]. split; [exact Hd2|]. split; [lia|].
    exact Herr.
Qed.

Lemma pow2_lt_inv a b : (pow2 a < pow2 b)%Q -> a < b.
Proof.
  intros H. destruct (Z_lt_le_dec a b) as [Hlt|Hle]; [exact Hlt|].
  pose proof (pow2_le b a Hle). lra.
Qed.

(** Rounding a positive number of the normal range: the result is the
    nearest binary64 number, within [roundoff] of the number, or infinity. *)
Lemma round_normal (sx : bool) (m e : Z) (l : location) (x : Q) :
  0 < m ->
  located (x * pow2 (- e)) m l ->
  prec <= Zdigits2 m ->
  (pow2 (-1022) <= x)%Q ->
  exists (m' : positive) (e' : Z),
    binary_round_aux prec emax sx m e l
    = (if e' <=? emax - prec then S754_finite sx m' e' else S754_infinity sx)
    /\ Z.pos (digits2_pos m') = prec
    /\ (Qabs (inject_Z (Z.pos m') * pow2 e' - x) <= roundoff * x)%Q
    /\ ((x < pow2 (emax - 1))%Q -> e' <= emax - prec).
Proof.
  intros Hm Hloc Hd Hx.
  destruct (located_digits _ _ _ Hm Hloc) as [Hlo Hhi].
  apply pow2_scale_lt in Hhi. apply pow2_scale_le in Hlo.
  assert (Hk : -1022 < Zdigits2 m + e) by (apply pow2_lt_inv; lra).
  destruct (binary_round_aux_normal sx m e l x Hm Hloc) as (m' & e' & Heq & Hd' & He' & Herr);
    [lia|unfold prec; lia|].
  exists m', e'. split; [exact Heq|]. split; [exact Hd'|]. split.
  - eapply Qle_trans; [exact Herr|].
    replace (Zdigits2 m + e - prec - 1) with (- prec + (Zdigits2 m - 1 + e)) by lia.
    rewrite pow2_add. fold roundoff. apply Qmult_le_l; [apply pow2_pos|exact Hlo].
  - intros Hmax.
    assert (Zdigits2 m - 1 + e < emax - 1) by (apply pow2_lt_inv; lra). lia.
Qed.

Section Ratio.

Variables r b : Z.
Hypothesis Hb : 0 < b.

Lemma ratio_den_pos : (0 < inject_Z b)%Q.
Proof. change 0%Q with (inject_Z 0). rewrite <- Zlt_Qlt. exact Hb. Qed.

Lemma ratio_nonneg : 0 <= r -> (0 <= inject_Z r / inject_Z b)%Q.
Proof.
  intros H. apply Qle_shift_div_l; [exact ratio_den_pos|].
  rewrite Qmult_0_l. change 0%Q with (inject_Z 0). rewrite <- Zle_Qle. exact H.
Qed.

Lemma ratio_pos : 0 < r -> (0 < inject_Z r / inject_Z b)%Q.
Proof.
  intros H. apply Qlt_shift_div_l; [exact ratio_den_pos|].
  rewrite Qmult_0_l. change 0%Q with (inject_Z 0). rewrite <- Zlt_Qlt. exact H.
Qed.

Lemma ratio_lt_1 : r < b -> (inject_Z r / inject_Z b < 1)%Q.
Proof.
  intros H. apply Qlt_shift_div_r; [exact ratio_den_pos|].
  rewrite Qmult_1_l, <- Zlt_Qlt. exact H.
Qed.

Lemma ratio_lt_half : 2 * r < b -> (inject_Z r / inject_Z b < 1 # 2)%Q.
Proof.
  intros H. apply Qlt_shift_div_r; [exact ratio_den_pos|].
  rewrite Zlt_Qlt, inject_Z_mult in H. change (inject_Z 2) with 2%Q in H. lra.
Qed.

Lemma ratio_gt_half : b < 2 * r -> (1 # 2 < inject_Z r / inject_Z b)%Q.
Proof.
  intros H. apply Qlt_shift_div_l; [exact ratio_den_pos|].
  rewrite Zlt_Qlt, inject_Z_mult in H. change (inject_Z 2) with 2%Q in H. lra.
Qed.

Lemma ratio_eq_half : 2 * r = b -> (inject_Z r / inject_Z b == 1 # 2)%Q.
Proof.
  intros H. apply Qle_antisym.
  - apply Qle_shift_div_r; [exact ratio_den_pos|].
    rewrite <- H, inject_Z_mult. change (inject_Z 2) with 2%Q. lra.
  - apply Qle_shift_div_l; [exact ratio_den_pos|].
    rewrite <- H, inject_Z_mult. change (inject_Z 2) with 2%Q. lra.
Qed.

(** Where a quotient lies, from its remainder. *)
Lemma new_location_located (q : Z) :
  0 <= r < b ->
  located (inject_Z q + inject_Z r / inject_Z b) q (new_location b r).
Proof.
  intros [Hr0 Hrb]. unfold new_location.
  destruct (Z.even b) eqn:Heven;
    unfold new_location_even, new_location_odd;
    (destruct (Z.eqb_spec r 0) as [->|Hr];
     [cbn [located]; unfold Qdiv; change (inject_Z 0) with 0%Q; ring|]);
    pose proof (ratio_pos ltac:(lia)) as Hpos; pose proof (ratio_lt_1 Hrb) as Hlt1.
  - destruct (Z.compare_spec (2 * r) b) as [Heq|Hlt|Hgt]; cbn [located].
    + pose proof (ratio_eq_half Heq). lra.
    + pose proof (ratio_lt_half Hlt). split; lra.
    + pose proof (ratio_gt_half Hgt). split; lra.
  - assert (Hodd : 2 * r <> b).
    { intros <-. rewrite Z.even_mul in Heven. discriminate Heven. }
    destruct (Z.compare_spec (2 * r + 1) b) as [Heq|Hlt|Hgt]; cbn [located].
    + pose proof (ratio_lt_half ltac:(lia)). split; lra.
    + pose proof (ratio_lt_half ltac:(lia)). split; lra.
    + pose proof (ratio_gt_half ltac:(lia)). split; lra.
Qed.

End Ratio.

Lemma dyadic_pos m e : 0 < m -> (0 < dyadic m e)%Q.
Proof.
  intros Hm. unfold dyadic. apply Qmult_lt_0_compat; [|apply pow2_pos].
  change 0%Q with (inject_Z 0). rewrite <- Zlt_Qlt. exact Hm.
Qed.

Lemma dyadic_bounds m e :
  0 < m ->
  (pow2 (Zdigits2 m - 1 + e) <= dyadic m e /\ dyadic m e < pow2 (Zdigits2 m + e))%Q.
Proof.
  intros Hm. destruct (Zdigits2_bounds m Hm) as [Hlo Hhi].
  assert (Hd : 0 < Zdigits2 m) by (destruct m; cbn; lia).
  unfold dyadic. rewrite !pow2_add.
  rewrite <- (pow2_Z (Zdigits2 m - 1)), <- (pow2_Z (Zdigits2 m)) by lia. split.
  - apply Qmult_le_compat_r; [|apply Qlt_le_weak, pow2_pos].
    rewrite <- Zle_Qle. exact Hlo.
  - apply Qmult_lt_compat_r; [apply pow2_pos|].
    rewrite <- Zlt_Qlt. exact Hhi.
Qed.

Lemma Zdigits2_ge (q d : Z) : 0 <= d -> 2 ^ d <= q -> d + 1 <= Zdigits2 q.
Proof.
  intros Hd Hq.
  assert (Hq0 : 0 < q) by (pose proof (Z.pow_pos_nonneg 2 d); lia).
  destruct (Zdigits2_bounds q Hq0) as [_ Hhi].
  destruct (Z_lt_le_dec (Zdigits2 q) (d + 1)) as [Hlt|Hle]; [|exact Hle].
  assert (0 <= Zdigits2 q) by (destruct q; cbn; lia).
  assert (2 ^ Zdigits2 q <= 2 ^ d) by (apply Z.pow_le_mono_r; lia). lia.
Qed.

(** The quotient of two positive numbers that the division computes, and
    where the exact quotient lies. *)
Lemma SFdiv_core_located (m1 e1 m2 e2 : Z) :
  0 < m1 -> 0 < m2 ->
  (pow2 (-1022) <= dyadic m1 e1 / dyadic m2 e2)%Q ->
  exists (q e : Z) (l : location),
    SFdiv_core_binary prec emax m1 e1 m2 e2 = (q, e, l)
    /\ 0 < q
    /\ located (dyadic m1 e1 / dyadic m2 e2 * pow2 (- e)) q l
    /\ prec <= Zdigits2 q.
Proof.
  intros Hm1 Hm2 Hx.
  pose proof (dyadic_pos m1 e1 Hm1) as HX. pose proof (dyadic_pos m2 e2 Hm2) as HY.
  destruct (dyadic_bounds m1 e1 Hm1) as [HXlo _].
  destruct (dyadic_bounds m2 e2 Hm2) as [_ HYhi].
  set (x := (dyadic m1 e1 / dyadic m2 e2)%Q) in *.
  unfold SFdiv_core_binary.
  set (D := Zdigits2 m1 + e1 - (Zdigits2 m2 + e2)).
  set (F := fexp prec emax D).
  set (e' := Z.min F (e1 - e2)).
  set (s := e1 - e2 - e').
  assert (Hs : 0 <= s) by lia.
  assert (Hm' : match s with
                | Z.pos _ => Z.shiftl m1 s
                | 0 => m1
                | Z.neg _ => 0
                end = m1 * 2 ^ s).
  { destruct s as [|s'|s'] eqn:Es; [lia| |lia]. apply Z.shiftl_mul_pow2. lia. }
  rewrite Hm'.
  pose proof (Z_div_mod (m1 * 2 ^ s) m2 ltac:(lia)) as Hdiv.
  destruct (Z.div_eucl (m1 * 2 ^ s) m2) as [q r]. destruct Hdiv as [Hqr Hr].
  exists q, e', (new_location m2 r). split; [reflexivity|].
  assert (Hm2Q : ~ (inject_Z m2 == 0)%Q).
  { change 0%Q with (inject_Z 0). rewrite inject_Z_injective. lia. }
  assert (Hy : (x * pow2 (- e') == inject_Z q + inject_Z r / inject_Z m2)%Q).
  { assert (Hpow : (pow2 e1 * pow2 (- e') == inject_Z (2 ^ s) * pow2 e2)%Q).
    { rewrite pow2_Z by lia. rewrite <- !pow2_add. replace (e1 + - e') with (s + e2) by lia.
      reflexivity. }
    assert (Hnum : (inject_Z m1 * inject_Z (2 ^ s) == inject_Z m2 * inject_Z q + inject_Z r)%Q).
    { rewrite <- !inject_Z_mult, <- inject_Z_plus, Hqr. reflexivity. }
    assert (He2 : ~ (pow2 e2 == 0)%Q)
      by (pose proof (pow2_pos e2); intros H0; lra).
    unfold x, dyadic.
    transitivity (inject_Z m1 * (pow2 e1 * pow2 (- e')) / (inject_Z m2 * pow2 e2))%Q;
      [field; split; assumption|].
    rewrite Hpow.
    transitivity ((inject_Z m1 * inject_Z (2 ^ s)) / inject_Z m2)%Q;
      [field; split; assumption|].
    rewrite Hnum. field. exact Hm2Q. }
  assert (Hloc : located (x * pow2 (- e')) q (new_location m2 r)).
  { apply (located_ext (inject_Z q + inject_Z r / inject_Z m2)%Q);
      [symmetry; exact Hy|]. apply new_location_located; lia. }
  (* the quotient has at least [prec] digits *)
  assert (Hbig : (pow2 (prec - 1) <= x * pow2 (- e'))%Q).
  { apply Qle_trans with (x * pow2 (- F))%Q.
    - assert (Hxlo : (pow2 (D - 1) <= x)%Q).
      { unfold x. apply Qle_shift_div_l; [exact HY|].
        apply Qle_trans with (pow2 (D - 1) * pow2 (Zdigits2 m2 + e2))%Q.
        - apply Qmult_le_l; [apply pow2_pos|]. apply Qlt_le_weak. exact HYhi.
        - rewrite <- pow2_add.
          replace (D - 1 + (Zdigits2 m2 + e2)) with (Zdigits2 m1 - 1 + e1) by lia.
          exact HXlo. }
      destruct (Z_le_gt_dec (D - prec) (-1074)) as [Hsub|Hnorm].
      + replace F with (-1074) by (unfold F, fexp, emin, emax, prec in *; lia).
        replace (prec - 1) with (-1022 + - -1074) by reflexivity. rewrite pow2_add.
        apply Qmult_le_compat_r; [exact Hx|]. apply Qlt_le_weak, pow2_pos.
      + replace F with (D - prec) by (unfold F, fexp, emin, emax, prec in *; lia).
        replace (prec - 1) with (D - 1 + - (D - prec)) by lia. rewrite pow2_add.
        apply Qmult_le_compat_r; [exact Hxlo|]. apply Qlt_le_weak, pow2_pos.
    - apply Qmult_le_l; [unfold x; apply Qlt_shift_div_l; [exact HY|lra]|].
      apply pow2_le. lia. }
  destruct (located_floor _ _ _ Hloc) as [_ Hhi].
  assert (Hq : 2 ^ (prec - 1) <= q).
  { rewrite <- pow2_Z in Hbig by (unfold prec; lia).
    assert (H : (inject_Z (2 ^ (prec - 1)) < inject_Z (q + 1))%Q)
      by (rewrite inject_Z_succ; lra).
    rewrite <- Zlt_Qlt in H. lia. }
  split; [change (2 ^ (prec - 1)) with 4503599627370496 in Hq; lia|].
  split; [exact Hloc|].
  apply (Zdigits2_ge q (prec - 1)); [unfold prec; lia|exact Hq].
Qed.

Lemma iter_xO_pos (m n : positive) : Z.pos (Pos.iter xO m n) = Z.pos m * 2 ^ Z.pos n.
Proof.
  induction n as [|n IH] using Pos.peano_ind.
  - cbn [Pos.iter]. rewrite (Pos2Z.inj_xO m). change (2 ^ 1) with 2. lia.
  - rewrite Pos.iter_succ, (Pos2Z.inj_xO (Pos.iter xO m n)), IH, Pos2Z.inj_succ.
    rewrite Z.pow_succ_r by lia. lia.
Qed.

Lemma dyadic_shift (m e n : Z) :
  0 <= n -> (dyadic (m * 2 ^ n) (e - n) == dyadic m e)%Q.
Proof.
  intros Hn. unfold dyadic. rewrite inject_Z_mult, pow2_Z by exact Hn.
  rewrite <- Qmult_assoc, <- pow2_add. replace (n + (e - n)) with e by lia. reflexivity.
Qed.

Lemma Zdigits2_shift (m n : Z) :
  0 < m -> 0 <= n -> Zdigits2 (m * 2 ^ n) = Zdigits2 m + n.
Proof.
  intros Hm Hn. destruct (Zdigits2_bounds m Hm) as [Hlo Hhi].
  assert (Hd : 0 < Zdigits2 m) by (destruct m; cbn; lia).
  pose proof (Z.pow_pos_nonneg 2 n ltac:(lia) Hn) as Hp.
  apply Zdigits2_unique; [|lia].
  replace (Zdigits2 m + n - 1) with (Zdigits2 m - 1 + n) by lia.
  rewrite !Z.pow_add_r by lia. split; nia.
Qed.

Lemma dyadic_exact (m e : Z) : (dyadic m e * pow2 (- e) == inject_Z m)%Q.
Proof.
  unfold dyadic. rewrite <- Qmult_assoc, (Qmult_comm (pow2 e)), pow2_cancel. ring.
Qed.

(** Rounding a mantissa and an exponent of the normal range. *)
Lemma binary_round_normal (sx : bool) (mx : positive) (ex : Z) :
  (pow2 (-1022) <= dyadic (Z.pos mx) ex)%Q ->
  exists (m' : positive) (e' : Z),
    binary_round prec emax sx mx ex
    = (if e' <=? emax - prec then S754_finite sx m' e' else S754_infinity sx)
    /\ Z.pos (digits2_pos m') = prec
    /\ (Qabs (dyadic (Z.pos m') e' - dyadic (Z.pos mx) ex) <= roundoff * dyadic (Z.pos mx) ex)%Q
    /\ ((dyadic (Z.pos mx) ex < pow2 (emax - 1))%Q -> e' <= emax - prec).
Proof.
  intros Hx. set (x := dyadic (Z.pos mx) ex) in *.
  destruct (dyadic_bounds (Z.pos mx) ex ltac:(lia)) as [_ Hhi]. fold x in Hhi.
  assert (Hk : -1022 < Zdigits2 (Z.pos mx) + ex) by (apply pow2_lt_inv; lra).
  cbn [Zdigits2] in Hk.
  unfold binary_round.
  rewrite fexp_normal by (unfold prec; lia).
  set (d := Z.pos (digits2_pos mx)) in *.
  assert (Hal : exists (mz : positive) (ez : Z),
             shl_align mx ex (d + ex - prec) = (mz, ez)
             /\ (dyadic (Z.pos mz) ez == x)%Q
             /\ prec <= Zdigits2 (Z.pos mz)).
  { unfold shl_align. destruct (d + ex - prec - ex) as [|n|n] eqn:En.
    - exists mx, ex. split; [reflexivity|]. split; [reflexivity|]. cbn [Zdigits2]. fold d. lia.
    - exists mx, ex. split; [reflexivity|]. split; [reflexivity|]. cbn [Zdigits2]. fold d. lia.
    - exists (Pos.iter xO mx n), (d + ex - prec). split; [reflexivity|].
      rewrite iter_xO_pos. split.
      + replace (d + ex - prec) with (ex - Z.pos n) by lia. apply dyadic_shift. lia.
      + rewrite Zdigits2_shift by lia. cbn [Zdigits2]. fold d. lia. }
  destruct Hal as (mz & ez & -> & Hval & Hdig).
  destruct (round_normal sx (Z.pos mz) ez loc_Exact x) as (m' & e' & Heq & Hd' & Herr & Hmax);
    [lia| |exact Hdig|exact Hx|].
  { cbn [located]. rewrite <- Hval. apply dyadic_exact. }
  exists m', e'. auto.
Qed.

Lemma Qabs_le_iff (x y : Q) : (Qabs x <= y <-> - y <= x /\ x <= y)%Q.
Proof. apply Qabs_Qle_condition. Qed.

Section Roundings.

Variable v : Q.
Hypothesis Hv0 : (0 <= v)%Q.
Hypothesis Hv4 : (v <= 1 # 4)%Q.

Lemma mult_le_mono (a b c d : Q) :
  (0 <= a)%Q -> (a <= b)%Q -> (0 <= c)%Q -> (c <= d)%Q -> (a * c <= b * d)%Q.
Proof. intros. nra. Qed.

(** Three roundings in a row stay within four units of roundoff. *)
Lemma three_roundings (A R a r f : Q) :
  (0 <= A)%Q -> (0 <= R)%Q ->
  (Qabs (a - A) <= v * A)%Q ->
  (Qabs (r - R) <= v * R)%Q ->
  (Qabs (f - a * r) <= v * (a * r))%Q ->
  (Qabs (f - A * R) <= 4 * v * (A * R))%Q.
Proof.
  intros HA HR Ha Hr Hf.
  rewrite Qabs_le_iff in *.
  destruct Ha as [Ha1 Ha2], Hr as [Hr1 Hr2], Hf as [Hf1 Hf2].
  assert (Ha0 : (0 <= a)%Q) by nra.
  assert (Hr0 : (0 <= r)%Q) by nra.
  assert (Hup : (a * r <= (A * (1 + v)) * (R * (1 + v)))%Q)
    by (apply mult_le_mono; lra).
  assert (Hlo : ((A * (1 - v)) * (R * (1 - v)) <= a * r)%Q)
    by (apply mult_le_mono; nra).
  assert (HAR : (0 <= A * R)%Q) by nra.
  set (t := (A * R)%Q) in *.
  assert (Hup' : (a * r <= t * ((1 + v) * (1 + v)))%Q) by (unfold t; lra).
  assert (Hlo' : (t * ((1 - v) * (1 - v)) <= a * r)%Q) by (unfold t; lra).
  set (w := (a * r)%Q) in *.
  assert (Hvv : (0 <= v * v)%Q) by nra.
  assert (Htv : (0 <= t * v)%Q) by nra.
  assert (Htvv : (0 <= t * (v * v))%Q) by nra.
  assert (Htvvv : (0 <= t * (v * v) * v)%Q) by nra.
  assert (Htvv4 : (t * (v * v) <= t * v * (1 # 4))%Q) by nra.
  assert (Htvvv4 : (t * (v * v) * v <= t * (v * v) * (1 # 4))%Q) by nra.
  split.
  - (* f >= w (1 - v) >= t (1-v)^3 *)
    assert (H : (t * ((1 - v) * (1 - v)) * (1 - v) <= w * (1 - v))%Q) by nra.
    nra.
  - assert (H : (w * (1 + v) <= t * ((1 + v) * (1 + v)) * (1 + v))%Q) by nra.
    nra.
Qed.

End Roundings.

Lemma roundoff_small : (0 <= roundoff /\ roundoff <= 1 # 4)%Q.
Proof. split; [apply Qlt_le_weak, pow2_pos|]. unfold roundoff. vm_compute. discriminate. Qed.

Lemma dyadic_0 (m : Z) : (dyadic m 0 == inject_Z m)%Q.
Proof. unfold dyadic. change (pow2 0) with 1%Q. ring. Qed.

Lemma inject_Z_pos (a : Z) : 0 < a -> (0 < inject_Z a)%Q.
Proof. intros H. change 0%Q with (inject_Z 0). rewrite <- Zlt_Qlt. exact H. Qed.

Lemma inject_Z_ge_1 (a : Z) : 0 < a -> (1 <= inject_Z a)%Q.
Proof. intros H. change 1%Q with (inject_Z 1). rewrite <- Zle_Qle. lia. Qed.

Lemma pow2_m1022_le_1 : (pow2 (-1022) <= 1)%Q.
Proof. change 1%Q with (pow2 0). apply pow2_le. lia. Qed.

(** [float(a)] for a positive [int]. *)
Lemma float_of_int_pos (a : Z) :
  0 < a ->
  exists (m : positive) (e : Z),
    float_of_int a
    = (if e <=? emax - prec then Ok (S754_finite false m e) else Raise OverflowError)
    /\ Z.pos (digits2_pos m) = prec
    /\ (Qabs (dyadic (Z.pos m) e - inject_Z a) <= roundoff * inject_Z a)%Q
    /\ ((inject_Z a < pow2 (emax - 1))%Q -> e <= emax - prec).
Proof.
  intros Ha. destruct a as [|p|p]; try lia.
  pose proof (inject_Z_ge_1 (Z.pos p) Ha) as H1. pose proof pow2_m1022_le_1 as H2.
  destruct (binary_round_normal false p 0) as (m & e & Heq & Hd & Herr & Hmax).
  { rewrite dyadic_0. lra. }
  rewrite dyadic_0 in Herr, Hmax.
  exists m, e. unfold float_of_int. cbn [binary_normalize]. rewrite Heq.
  split; [destruct (e <=? emax - prec); reflexivity|]. auto.
Qed.

(** [p / b] for two positive [int]s. *)
Lemma int_truediv_pos (p b : Z) :
  0 < p -> 0 < b ->
  (pow2 (-1022) <= inject_Z p / inject_Z b)%Q ->
  exists (m : positive) (e : Z),
    int_truediv p b
    = (if e <=? emax - prec then Ok (S754_finite false m e) else Raise OverflowError)
    /\ Z.pos (digits2_pos m) = prec
    /\ (Qabs (dyadic (Z.pos m) e - inject_Z p / inject_Z b) <= roundoff * (inject_Z p / inject_Z b))%Q
    /\ ((inject_Z p / inject_Z b < pow2 (emax - 1))%Q -> e <= emax - prec).
Proof.
  intros Hp Hb Hx.
  assert (Hxe : (dyadic p 0 / dyadic b 0 == inject_Z p / inject_Z b)%Q)
    by (rewrite !dyadic_0; reflexivity).
  destruct (SFdiv_core_located p 0 b 0 Hp Hb) as (q & e0 & l & Hcore & Hq & Hloc & Hdig).
  { rewrite Hxe. exact Hx. }
  destruct (round_normal false q e0 l (inject_Z p / inject_Z b)) as (m & e & Heq & Hd & Herr & Hmax);
    [exact Hq| |exact Hdig|exact Hx|].
  { revert Hloc. apply located_ext. rewrite Hxe. reflexivity. }
  exists m, e. unfold int_truediv.
  replace (b =? 0) with false by (symmetry; apply Z.eqb_neq; lia).
  replace (p =? 0) with false by (symmetry; apply Z.eqb_neq; lia).
  rewrite !Z.abs_eq by lia. rewrite Hcore.
  replace (p <? 0) with false by (symmetry; apply Z.ltb_ge; lia).
  replace (b <? 0) with false by (symmetry; apply Z.ltb_ge; lia).
  cbn [xorb]. rewrite Heq.
  split; [destruct (e <=? emax - prec); reflexivity|]. auto.
Qed.

(** [x / y] for two positive [float]s. *)
Lemma SFdiv_pos (mx : positive) (ex : Z) (my : positive) (ey : Z) :
  (pow2 (-1022) <= dyadic (Z.pos mx) ex / dyadic (Z.pos my) ey)%Q ->
  exists (m : positive) (e : Z),
    SFdiv prec emax (S754_finite false mx ex) (S754_finite false my ey)
    = (if e <=? emax - prec then S754_finite false m e else S754_infinity false)
    /\ Z.pos (digits2_pos m) = prec
    /\ (Qabs (dyadic (Z.pos m) e - dyadic (Z.pos mx) ex / dyadic (Z.pos my) ey)
        <= roundoff * (dyadic (Z.pos mx) ex / dyadic (Z.pos my) ey))%Q
    /\ ((dyadic (Z.pos mx) ex / dyadic (Z.pos my) ey < pow2 (emax - 1))%Q -> e <= emax - prec).
Proof.
  intros Hx.
  destruct (SFdiv_core_located (Z.pos mx) ex (Z.pos my) ey) as (q & e0 & l & Hcore & Hq & Hloc & Hdig);
    [lia|lia|exact Hx|].
  destruct (round_normal false q e0 l _ Hq Hloc Hdig Hx) as (m & e & Heq & Hd & Herr & Hmax).
  exists m, e. cbn [SFdiv xorb]. rewrite Hcore, Heq. auto.
Qed.

(** [x * y] for two positive [float]s, the second one normal. *)
Lemma SFmul_pos (mx : positive) (ex : Z) (my : positive) (ey : Z) :
  Z.pos (digits2_pos my) = prec ->
  (pow2 (-1022) <= dyadic (Z.pos mx) ex * dyadic (Z.pos my) ey)%Q ->
  exists (m : positive) (e : Z),
    float_mul (S754_finite false mx ex) (S754_finite false my ey)
    = (if e <=? emax - prec then S754_finite false m e else S754_infinity false)
    /\ Z.pos (digits2_pos m) = prec
    /\ (Qabs (dyadic (Z.pos m) e - dyadic (Z.pos mx) ex * dyadic (Z.pos my) ey)
        <= roundoff * (dyadic (Z.pos mx) ex * dyadic (Z.pos my) ey))%Q
    /\ ((dyadic (Z.pos mx) ex * dyadic (Z.pos my) ey < pow2 (emax - 1))%Q -> e <= emax - prec).
Proof.
  intros Hdy Hx.
  destruct (round_normal false (Z.pos (mx * my)) (ex + ey) loc_Exact
              (dyadic (Z.pos mx) ex * dyadic (Z.pos my) ey)) as (m & e & Heq & Hd & Herr & Hmax);
    [lia| | |exact Hx|].
  { cbn [located]. unfold dyadic. rewrite Pos2Z.inj_mul, inject_Z_mult.
    replace (- (ex + ey)) with (- ex + - ey) by lia. rewrite pow2_add.
    transitivity (inject_Z (Z.pos mx) * inject_Z (Z.pos my)
                  * (pow2 (- ex) * pow2 ex) * (pow2 (- ey) * pow2 ey))%Q; [ring|].
    rewrite !pow2_cancel. ring. }
  { apply (Zdigits2_ge _ (prec - 1)); [unfold prec; lia|].
    destruct (digits2_pos_bounds my) as [Hlo _]. rewrite Hdy in Hlo.
    rewrite Pos2Z.inj_mul. nia. }
  exists m, e. unfold float_mul. cbn [SFmul xorb]. rewrite Heq. auto.
Qed.

Lemma hundred_value : (dyadic 7036874417766400 (-46) == 100)%Q.
Proof. vm_compute. reflexivity. Qed.

Lemma num_value_float_pos (s : bool) (m : positive) (e : Z) (X : Q) :
  num_value (VFloat (S754_finite s m e)) = Some X -> (0 <= X)%Q ->
  s = false /\ X = dyadic (Z.pos m) e.
Proof.
  cbn. intros [= <-] HX. pose proof (dyadic_pos (Z.pos m) e ltac:(lia)) as Hpos.
  destruct s; [lra|]. auto.
Qed.

(** The rate [percent / 100]. *)
Lemma rate_spec (percent : val) (P : Q) :
  num_value percent = Some P ->
  (0 <= P)%Q -> (P < pow2 (emax - 1))%Q ->
  (P == 0 \/ pow2 (-1022) <= P / 100)%Q ->
  exists r : float,
    truediv percent (VInt 100) = Ok (VFloat r) /\ rounds true (P / 100) r.
Proof.
  intros Hval HP Hmax Hnormal.
  assert (Hmax' : (0 < P -> P / 100 < pow2 (emax - 1))%Q).
  { intros HP0. apply Qlt_shift_div_r; [reflexivity|]. pose proof (pow2_pos (emax - 1)). lra. }
  assert (Hpos : (0 < P -> 0 < P / 100)%Q).
  { intros HP0. apply Qlt_shift_div_l; [reflexivity|]. lra. }
  assert (Hzero : (P == 0 -> P / 100 == 0)%Q).
  { intros ->. reflexivity. }
  destruct percent as [s|p|f]; [discriminate Hval| |].
  - (* an int *)
    cbn in Hval. injection Hval as <-.
    destruct (Z.eq_dec p 0) as [->|Hp].
    + exists (S754_zero false). split; [reflexivity|]. left. split; [reflexivity|eauto].
    + assert (Hp0 : 0 < p).
      { change 0%Q with (inject_Z 0) in HP. rewrite <- Zle_Qle in HP. lia. }
      pose proof (inject_Z_pos p Hp0) as HpQ.
      destruct Hnormal as [H0|Hnormal]; [lra|].
      destruct (int_truediv_pos p 100 Hp0 ltac:(lia) Hnormal) as (m & e & Heq & Hd & Herr & He).
      exists (S754_finite false m e). cbn [truediv]. rewrite Heq.
      replace (e <=? emax - prec) with true
        by (symmetry; apply Z.leb_le, He, Hmax', HpQ).
      split; [reflexivity|]. right. split; [apply Hpos, HpQ|]. exists m, e. auto.
  - (* a float *)
    cbn [truediv].
    replace (float_of_int 100) with (Ok hundred) by (vm_compute; reflexivity).
    destruct f as [s|s| |s m e]; try discriminate Hval.
    + cbn in Hval. injection Hval as <-.
      exists (S754_zero (xorb s false)). split; [reflexivity|].
      left. split; [reflexivity|eauto].
    + destruct (num_value_float_pos s m e P Hval HP) as [-> ->].
      pose proof (dyadic_pos (Z.pos m) e ltac:(lia)) as HpQ.
      destruct Hnormal as [H0|Hnormal]; [lra|].
      assert (Hx : (dyadic (Z.pos m) e / dyadic 7036874417766400 (-46)
                   == dyadic (Z.pos m) e / 100)%Q) by (rewrite hundred_value; reflexivity).
      destruct (SFdiv_pos m e 7036874417766400 (-46)) as (m' & e' & Heq & Hd & Herr & He).
      { rewrite Hx. exact Hnormal. }
      rewrite Hx in Herr, He.
      exists (S754_finite false m' e').
      change (Ok hundred ≫= (fun g => float_truediv (S754_finite false m e) g ≫= (fun h => Ok (VFloat h))))
        with (Ok (VFloat (SFdiv prec emax (S754_finite false m e) hundred))).
      unfold hundred. rewrite Heq.
      replace (e' <=? emax - prec) with true
        by (symmetry; apply Z.leb_le, He, Hmax', HpQ).
      split; [reflexivity|]. right. split; [apply Hpos, HpQ|]. exists m', e'. auto.
Qed.

(** The factor [amount], as a float. *)
Lemma amount_spec (amount : val) (A : Q) :
  num_value amount = Some A ->
  (0 <= A)%Q -> (A < pow2 (emax - 1))%Q ->
  exists a : float,
    (forall rate : float, mul amount (VFloat rate) = Ok (VFloat (float_mul a rate)))
    /\ rounds false A a.
Proof.
  intros Hval HA Hmax.
  destruct amount as [s|z|f]; [discriminate Hval| |].
  - cbn in Hval. injection Hval as <-.
    destruct (Z.eq_dec z 0) as [->|Hz].
    + exists (S754_zero false). split; [reflexivity|]. left. split; [reflexivity|eauto].
    + assert (Hz0 : 0 < z).
      { change 0%Q with (inject_Z 0) in HA. rewrite <- Zle_Qle in HA. lia. }
      destruct (float_of_int_pos z Hz0) as (m & e & Heq & Hd & Herr & He).
      exists (S754_finite false m e). split.
      * intros rate. cbn [mul]. rewrite Heq.
        replace (e <=? emax - prec) with true by (symmetry; apply Z.leb_le, He, Hmax).
        reflexivity.
      * right. split; [apply inject_Z_pos, Hz0|]. exists m, e. auto.
  - destruct f as [s|s| |s m e]; try discriminate Hval.
    + cbn in Hval. injection Hval as <-.
      exists (S754_zero s). split; [reflexivity|]. left. split; [reflexivity|eauto].
    + destruct (num_value_float_pos s m e A Hval HA) as [-> ->].
      pose proof (dyadic_pos (Z.pos m) e ltac:(lia)) as Hpos.
      exists (S754_finite false m e). split; [reflexivity|].
      right. split; [exact Hpos|]. exists m, e. split; [reflexivity|]. split; [discriminate|].
      pose proof roundoff_small as [Hu0 _]. apply Qabs_le_iff. split; nra.
Qed.

Lemma tolerance_roundoff : (tolerance == 4 * roundoff)%Q.
Proof. vm_compute. reflexivity. Qed.

(** The product of the two factors. *)
Lemma product_spec (a r : float) (A R : Q) :
  rounds false A a -> rounds true R r ->
  (A * R == 0 \/ pow2 (-1021) <= A * R)%Q ->
  (A * R < pow2 (emax - 2))%Q ->
  is_finite (float_mul a r) = true
  /\ (Qabs (B2Q (float_mul a r) - A * R) <= tolerance * (A * R))%Q.
Proof.
  intros Ha Hr Hnormal Hmax. pose proof roundoff_small as [Hu0 Hu4].
  assert (Hzero : forall f : float,
             (A * R == 0)%Q -> (exists s : bool, f = S754_zero s) ->
             is_finite f = true /\ (Qabs (B2Q f - A * R) <= tolerance * (A * R))%Q).
  { intros f H0 [s ->]. split; [reflexivity|]. cbn [B2Q]. rewrite H0. vm_compute. discriminate. }
  destruct Ha as [[HA [sa ->]]|[HA (ma & ea & -> & _ & Herra)]];
    destruct Hr as [[HR [sr ->]]|[HR (mr & er & -> & Hdr & Herrr)]].
  - apply Hzero; [rewrite HA; ring|]. cbn. eauto.
  - apply Hzero; [rewrite HA; ring|]. cbn. eauto.
  - apply Hzero; [rewrite HR; ring|]. cbn. eauto.
  - specialize (Hdr eq_refl).
    assert (HAR : (0 < A * R)%Q) by (apply Qmult_lt_0_compat; assumption).
    destruct Hnormal as [H0|Hnormal]; [lra|].
    set (x := dyadic (Z.pos ma) ea) in *. set (y := dyadic (Z.pos mr) er) in *.
    rewrite Qabs_le_iff in Herra, Herrr.
    destruct Herra as [Ha1 Ha2], Herrr as [Hr1 Hr2].
    assert (Hlo : ((A * (3 # 4)) * (R * (3 # 4)) <= x * y)%Q) by (apply mult_le_mono; nra).
    assert (Hup : (x * y <= (A * (5 # 4)) * (R * (5 # 4)))%Q) by (apply mult_le_mono; nra).
    assert (Hp1 : (pow2 (-1021) == 2 * pow2 (-1022))%Q) by (rewrite <- pow2_succ; reflexivity).
    assert (Hp2 : (pow2 (emax - 1) == 2 * pow2 (emax - 2))%Q) by (rewrite <- pow2_succ; reflexivity).
    destruct (SFmul_pos ma ea mr er Hdr) as (m & e & Heq & Hd & Herr & He).
    { fold x y. nra. }
    fold x y in Herr, He. rewrite Heq.
    replace (e <=? emax - prec) with true by (symmetry; apply Z.leb_le, He; nra).
    split; [reflexivity|]. cbn [B2Q]. rewrite tolerance_roundoff.
    apply (three_roundings roundoff Hu0 Hu4 A R x y).
    + apply Qlt_le_weak, HA.
    + apply Qlt_le_weak, HR.
    + apply Qabs_le_iff. split; assumption.
    + apply Qabs_le_iff. split; assumption.
    + exact Herr.
Qed.

(** Within the range, the discount is the exact one up to the tolerance. *)
Lemma discount_rounding (amount percent : val) (A P : Q) (st : state) :
  num_value amount = Some A -> num_value percent = Some P ->
  (0 <= A)%Q -> (0 <= P)%Q ->
  (A < pow2 1023)%Q -> (P < pow2 1023)%Q -> (A * P / 100 < pow2 1022)%Q ->
  (P == 0 \/ pow2 (-1022) <= P / 100)%Q ->
  (A * P == 0 \/ pow2 (-1021) <= A * P / 100)%Q ->
  exists f : float,
    run (calculate_discount amount percent) st = (Ok (VFloat f), st)
    /\ is_finite f = true
    /\ (Qabs (B2Q f - A * P / 100) <= tolerance * (A * P / 100))%Q.
Proof.
  intros HvA HvP HA HP HAmax HPmax Hmax HPn Hn.
  destruct (rate_spec percent P HvP HP HPmax HPn) as (r & Hrate & Hr).
  destruct (amount_spec amount A HvA HA HAmax) as (a & Hmul & Ha).
  assert (Heq : (A * (P / 100) == A * P / 100)%Q) by (field).
  destruct (product_spec a r A (P / 100) Ha Hr) as [Hfin Herr].
  { rewrite Heq. destruct Hn as [H0|Hn]; [left|right; exact Hn].
    unfold Qdiv. rewrite H0. ring. }
  { rewrite Heq. exact Hmax. }
  exists (float_mul a r). rewrite calculate_discount_spec, Hrate.
  change (Ok (VFloat r) ≫= (fun rate => mul amount rate)) with (mul amount (VFloat r)).
  rewrite Hmul. split; [reflexivity|]. split; [exact Hfin|].
  rewrite <- Heq. exact Herr.
Qed.

Lemma Zlt_pow2 (z n : Z) : 0 <= n -> z < 2 ^ n -> (inject_Z z < pow2 n)%Q.
Proof. intros Hn Hz. rewrite <- pow2_Z by exact Hn. rewrite <- Zlt_Qlt. exact Hz. Qed.

(** For [int]s the range conditions come down to the magnitude of the
    arguments and of their product. *)
Lemma discount_rounding_int (a p : Z) (st : state) :
  0 <= a < 2 ^ 1023 -> 0 <= p < 2 ^ 1023 -> a * p < 2 ^ 1023 ->
  exists f : float,
    run (calculate_discount (VInt a) (VInt p)) st = (Ok (VFloat f), st)
    /\ is_finite f = true
    /\ (Qabs (B2Q f - inject_Z a * inject_Z p / 100)
        <= tolerance * (inject_Z a * inject_Z p / 100))%Q.
Proof.
  intros [Ha0 Ha] [Hp0 Hp] Hap.
  assert (Hsmall : (pow2 (-1021) <= 1 / 100)%Q) by (vm_compute; discriminate).
  assert (Hsmall' : (pow2 (-1022) <= pow2 (-1021))%Q) by (apply pow2_le; lia).
  assert (Hdiv : forall z : Z, 0 < z -> (1 / 100 <= inject_Z z / 100)%Q).
  { intros z Hz. pose proof (inject_Z_ge_1 z Hz). unfold Qdiv.
    apply Qmult_le_compat_r; [assumption|discriminate]. }
  assert (HA : (0 <= inject_Z a)%Q) by (change 0%Q with (inject_Z 0); rewrite <- Zle_Qle; lia).
  assert (HP : (0 <= inject_Z p)%Q) by (change 0%Q with (inject_Z 0); rewrite <- Zle_Qle; lia).
  apply discount_rounding; try reflexivity; try assumption.
  - apply Zlt_pow2; lia.
  - apply Zlt_pow2; lia.
  - rewrite <- inject_Z_mult.
    apply Qlt_shift_div_r; [reflexivity|].
    apply Qlt_le_trans with (pow2 1023); [apply Zlt_pow2; lia|].
    vm_compute. discriminate.
  - destruct (Z.eq_dec p 0) as [->|Hne]; [left; reflexivity|right].
    specialize (Hdiv p ltac:(lia)). lra.
  - destruct (Z.eq_dec (a * p) 0) as [H0|Hne].
    + left. rewrite <- inject_Z_mult, H0. reflexivity.
    + right. rewrite <- inject_Z_mult. specialize (Hdiv (a * p) ltac:(nia)). lra.
Qed.

(** C4, as the code has it. For every non-negative [int] or finite [float]
    [amount] and [percent] below [2^1023], with [percent / 100] and
    [amount * percent / 100] each zero or in the normal range of binary64
    (at least [2^-1022], resp. from [2^-1021] to below [2^1022]),
    [calculate_discount] returns a finite float within the relative
    tolerance [2^-51] of [amount * percent / 100]; for two [int]s that is
    whenever they and their product are below [2^1023]. *)
Theorem calculate_discount_within_tolerance :
  (forall (amount percent : val) (A P : Q) (st : state),
     num_value amount = Some A -> num_value percent = Some P ->
     (0 <= A)%Q -> (0 <= P)%Q ->
     (A < pow2 1023)%Q -> (P < pow2 1023)%Q -> (A * P / 100 < pow2 1022)%Q ->
     (P == 0 \/ pow2 (-1022) <= P / 100)%Q ->
     (A * P == 0 \/ pow2 (-1021) <= A * P / 100)%Q ->
     exists f : float,
       run (calculate_discount amount percent) st = (Ok (VFloat f), st)
       /\ is_finite f = true
       /\ (Qabs (B2Q f - A * P / 100) <= tolerance * (A * P / 100))%Q)
  /\ (forall (a p : Z) (st : state),
        0 <= a < 2 ^ 1023 -> 0 <= p < 2 ^ 1023 -> a * p < 2 ^ 1023 ->
        exists f : float,
          run (calculate_discount (VInt a) (VInt p)) st = (Ok (VFloat f), st)
          /\ is_finite f = true
          /\ (Qabs (B2Q f - inject_Z a * inject_Z p / 100)
              <= tolerance * (inject_Z a * inject_Z p / 100))%Q).
Proof.
  split.
  - exact discount_rounding.
  - exact discount_rounding_int.
Qed.

Lemma calculate_discount_within_tolerance_witness :
  (0 <= 200 < 2 ^ 1023 /\ 0 <= 15 < 2 ^ 1023 /\ 200 * 15 < 2 ^ 1023)
  /\ exists f : float,
       run (calculate_discount (VInt 200) (VInt 15)) main.initial
       = (Ok (VFloat f), main.initial)
       /\ is_finite f = true
       /\ (Qabs (B2Q f - inject_Z 200 * inject_Z 15 / 100)
           <= tolerance * (inject_Z 200 * inject_Z 15 / 100))%Q.
Proof.
  assert (Ha : 0 <= 200 < 2 ^ 1023) by (split; [lia|reflexivity]).
  assert (Hp : 0 <= 15 < 2 ^ 1023) by (split; [lia|reflexivity]).
  assert (Hap : 200 * 15 < 2 ^ 1023) by reflexivity.
  split; [auto|].
  exact (proj2 calculate_discount_within_tolerance 200 15 main.initial Ha Hp Hap).
Defined.

(** C4, as the claim has it, fails where the arithmetic overflows: on the
    [int] [10^400] the conversion to [float] raises, and on the floats
    [1e308] and [1000.0] the product is infinite. *)
Lemma calculate_discount_overflows :
  (0 <= 10 ^ 400 /\ 0 <= 15
   /\ run (calculate_discount (VInt (10 ^ 400)) (VInt 15)) main.initial
      = (Raise OverflowError, main.initial))
  /\ (is_finite (float_of_decimal 1 308) = true
      /\ (0 <= B2Q (float_of_decimal 1 308))%Q
      /\ is_finite (float_of_decimal 1 3) = true
      /\ (0 <= B2Q (float_of_decimal 1 3))%Q
      /\ run (calculate_discount (VFloat (float_of_decimal 1 308)) (VFloat (float_of_decimal 1 3)))
           main.initial
         = (Ok (VFloat (S754_infinity false)), main.initial)).
Proof.
  split; [split; [lia|split; [lia|]]|repeat split]; vm_compute; congruence.
Qed.

(** * Further properties of the operations *)

(** ** What a greeting tells about the name *)

Lemma append_nil_r (s : string) : s +:+ "" = s.
Proof.
  induction s as [|c s IH]; [reflexivity|].
  change (String c (s +:+ "") = String c s). rewrite IH. reflexivity.
Qed.

Lemma append_cons (c : ascii) (s t : string) : String c s +:+ t = String c (s +:+ t).
Proof. reflexivity. Qed.

Lemma append_length (s t : string) :
  String.length (s +:+ t) = (String.length s + String.length t)%nat.
Proof.
  induction s as [|c s IH]; [reflexivity|].
  rewrite append_cons. cbn [String.length]. rewrite IH. reflexivity.
Qed.

(** A suffix of equal strings can be dropped. *)
Lemma append_inj_l (t s1 s2 : string) : s1 +:+ t = s2 +:+ t -> s1 = s2.
Proof.
  revert s2. induction s1 as [|c s1 IH]; intros s2 H.
  - destruct s2 as [|d s2]; [reflexivity|].
    change ("" +:+ t) with t in H. rewrite append_cons in H.
    apply (f_equal String.length) in H. cbn [String.length] in H.
    rewrite append_length in H. lia.
  - destruct s2 as [|d s2].
    + change ("" +:+ t) with t in H. rewrite append_cons in H.
      apply (f_equal String.length) in H. cbn [String.length] in H.
      rewrite append_length in H. lia.
    + rewrite !append_cons in H. injection H as -> H. f_equal. apply IH, H.
Qed.

(** X1. [greet] is injective on name strings: two names that are greeted
    alike are the same name; and a greeting is eight characters longer
    than the name. [greet] erases the type of its argument, though: the
    [int] [5] and the string ["5"] are greeted alike. *)
Theorem greet_determines_name :
  (forall (n1 n2 : string) (st1 st2 : state),
     (run (greet (VStr n1)) st1).1 = (run (greet (VStr n2)) st2).1 -> n1 = n2)
  /\ (forall (n : string) (st : state),
        exists g : string,
          (run (greet (VStr n)) st).1 = Ok (VStr g)
          /\ String.length g = (String.length n + 8)%nat)
  /\ (forall st : state,
        (run (greet (VInt 5)) st).1 = (run (greet (VStr "5")) st).1).
Proof.
  split; [|split].
  - intros n1 n2 st1 st2. rewrite !greet_spec. cbn [fst str]. intros [= H].
    apply (append_inj_l "!"). exact H.
  - intros n st. rewrite greet_spec. eexists. split; [reflexivity|].
    cbn [str]. rewrite !append_length. cbn [String.length]. lia.
  - intros st. rewrite !greet_spec. reflexivity.
Qed.

Lemma greet_determines_name_witness :
  (run (greet (VStr "World")) main.initial).1 = (run (greet (VStr "World")) main.initial).1
  /\ "World" = "World".
Proof.
  split; [reflexivity|].
  exact (proj1 greet_determines_name "World" "World" main.initial main.initial eq_refl).
Defined.





(** X4. On an object that holds no [greeting] (one allocated without
    [__init__], or an identity that was never allocated), [greet_person]
    raises [AttributeError] for [greeting] and changes nothing. *)
Theorem greet_person_without_greeting (self : loc) (name : val) (st : state) :
  stored_prefix st self = None ->
  run (Redherring.greet_person self name) st = (Raise (AttributeError "greeting"), st).
Proof.
  intros Hnone.
  pose proof (greet_person_result self name st) as Hr.
  pose proof (greet_person_state self name st) as Hs.
  rewrite Hnone in Hr.
  destruct (run (Redherring.greet_person self name) st) as [r st'].
  cbn in Hr, Hs. subst. reflexivity.
Qed.

Lemma greet_person_without_greeting_witness :
  let st := (run alloc main.initial).2 in
  stored_prefix st 1%positive = None
  /\ run (Redherring.greet_person 1%positive (VStr "Alice")) st
     = (Raise (AttributeError "greeting"), st).
Proof.
  intros st.
  assert (Hnone : stored_prefix st 1%positive = None) by (vm_compute; reflexivity).
  split; [exact Hnone|].
  exact (greet_person_without_greeting 1%positive (VStr "Alice") st Hnone).
Defined.





(** ** The outcomes of a discount *)

Lemma float_of_int_outcomes (z : Z) :
  float_of_int z = Raise OverflowError \/ exists f : float, float_of_int z = Ok f.
Proof.
  unfold float_of_int. destruct (binary_normalize prec emax z 0 false); eauto.
Qed.

Lemma float_of_int_100 : float_of_int 100 = Ok hundred.
Proof. vm_compute. reflexivity. Qed.

Lemma int_truediv_100_outcomes (p : Z) :
  int_truediv p 100 = Raise OverflowError \/ exists f : float, int_truediv p 100 = Ok f.
Proof.
  unfold int_truediv. change (100 =? 0) with false. cbv iota.
  destruct (p =? 0); [eauto|].
  destruct (SFdiv_core_binary prec emax (Z.abs p) 0 (Z.abs 100) 0) as [[q e] l].
  destruct (binary_round_aux prec emax (xorb (p <? 0) (100 <? 0)) q e l); eauto.
Qed.

Lemma truediv_float_100 (g : float) :
  truediv (VFloat g) (VInt 100) = Ok (VFloat (SFdiv prec emax g hundred)).
Proof. cbn [truediv]. rewrite float_of_int_100. reflexivity. Qed.

(** The rate [percent / 100]: a float, or one of two exceptions. *)
Lemma rate_outcomes (percent : val) :
  truediv percent (VInt 100) = Raise TypeError
  \/ truediv percent (VInt 100) = Raise OverflowError
  \/ exists r : float, truediv percent (VInt 100) = Ok (VFloat r).
Proof.
  destruct percent as [s|p|g].
  - left. reflexivity.
  - cbn [truediv]. destruct (int_truediv_100_outcomes p) as [->|[f ->]]; cbn; eauto.
  - rewrite truediv_float_100. eauto.
Qed.

Lemma mul_float_outcomes (amount : val) (r : float) :
  mul amount (VFloat r) = Raise TypeError
  \/ mul amount (VFloat r) = Raise OverflowError
  \/ exists f : float, mul amount (VFloat r) = Ok (VFloat f).
Proof.
  destruct amount as [s|a|f].
  - left. reflexivity.
  - cbn [mul]. destruct (float_of_int_outcomes a) as [->|[f ->]]; cbn; eauto.
  - cbn [mul]. eauto.
Qed.

(** X7. Whatever the two arguments, [calculate_discount] either returns a
    [float] (never an [int] or a string, also for two [int]s) or raises
    [TypeError] or [OverflowError]; there is no argument on which it
    divides by zero. *)
Theorem calculate_discount_outcomes (amount percent : val) (st : state) :
  (run (calculate_discount amount percent) st).1 = Raise TypeError
  \/ (run (calculate_discount amount percent) st).1 = Raise OverflowError
  \/ exists f : float, (run (calculate_discount amount percent) st).1 = Ok (VFloat f).
Proof.
  rewrite calculate_discount_spec. cbn [fst].
  destruct (rate_outcomes percent) as [->|[->|[r ->]]]; [auto|auto|].
  apply mul_float_outcomes.
Qed.

(** X8. A string in place of [percent] raises [TypeError] whatever the
    amount is, and so does a string in place of [amount] beside a [float]
    percent; two [float]s, infinities and NaN included, never raise: the
    result is the product of the amount and [percent / 100.0]. *)
Theorem calculate_discount_type_errors :
  (forall (amount : val) (s : string) (st : state),
     run (calculate_discount amount (VStr s)) st = (Raise TypeError, st))
  /\ (forall (s : string) (g : float) (st : state),
        run (calculate_discount (VStr s) (VFloat g)) st = (Raise TypeError, st))
  /\ (forall (f g : float) (st : state),
        run (calculate_discount (VFloat f) (VFloat g)) st
        = (Ok (VFloat (float_mul f (SFdiv prec emax g hundred))), st)).
Proof.
  split; [|split].
  - intros amount s st. rewrite calculate_discount_spec. reflexivity.
  - intros s g st. rewrite calculate_discount_spec, truediv_float_100. reflexivity.
  - intros f g st. rewrite calculate_discount_spec, truediv_float_100. reflexivity.
Qed.

(** ** The sign of a discount *)















(** ** Discounts that binary64 holds exactly *)

(** An integer within one half of zero is zero. *)
Lemma inject_Z_half (w : Z) : (Qabs (inject_Z w) <= 1 # 2)%Q -> w = 0.
Proof.
  intros H. apply Qabs_le_iff in H. destruct H as [Hlo Hhi].
  assert (H1 : (inject_Z w < inject_Z 1)%Q) by (change (inject_Z 1) with 1%Q; lra).
  assert (H2 : (inject_Z (-1) < inject_Z w)%Q) by (change (inject_Z (-1)) with (-1)%Q; lra).
  rewrite <- Zlt_Qlt in H1, H2. lia.
Qed.

Lemma Zdigits2_le (z d : Z) : 0 < z -> z < 2 ^ d -> 0 <= d -> Zdigits2 z <= d.
Proof.
  intros Hz Hlt Hd. destruct (Zdigits2_bounds z Hz) as [Hlo _].
  destruct (Z_le_gt_dec (Zdigits2 z) d) as [Hle|Hgt]; [exact Hle|].
  assert (2 ^ d <= 2 ^ (Zdigits2 z - 1)) by (apply Z.pow_le_mono_r; lia). lia.
Qed.

(** Rounding a number that a mantissa of [prec] digits holds returns it. *)
Lemma round_exact (sx : bool) (m e : Z) (l : location) (x : Q) (z n : Z) :
  0 < m ->
  located (x * pow2 (- e)) m l ->
  prec <= Zdigits2 m ->
  (pow2 (-1022) <= x)%Q -> (x < pow2 (emax - 1))%Q ->
  0 < z -> Zdigits2 z <= prec -> (x == dyadic z n)%Q ->
  exists (m' : positive) (e' : Z),
    binary_round_aux prec emax sx m e l = S754_finite sx m' e'
    /\ Z.pos (digits2_pos m') = prec
    /\ (dyadic (Z.pos m') e' == x)%Q.
Proof.
  intros Hm Hloc Hd Hmin Hmax Hz Hdz Hx.
  destruct (located_digits _ _ _ Hm Hloc) as [Hlo Hhi].
  apply pow2_scale_lt in Hhi. apply pow2_scale_le in Hlo.
  set (k := Zdigits2 m + e) in *.
  replace (Zdigits2 m - 1 + e) with (k - 1) in Hlo by (unfold k; lia).
  assert (Hk : -1022 < k) by (apply pow2_lt_inv; lra).
  assert (Hk' : k - 1 < emax - 1) by (apply pow2_lt_inv; lra).
  destruct (binary_round_aux_normal sx m e l x Hm Hloc) as (m' & e' & Heq & Hd' & He' & Herr);
    [lia|unfold prec; fold k; lia|].
  fold k in He', Herr.
  destruct (dyadic_bounds z n Hz) as [Hzlo Hzhi]. rewrite <- Hx in Hzlo, Hzhi.
  assert (Hkz : k = Zdigits2 z + n).
  { assert (k - 1 < Zdigits2 z + n) by (apply pow2_lt_inv; lra).
    assert (Zdigits2 z - 1 + n < k) by (apply pow2_lt_inv; lra). lia. }
  set (e1 := k - prec) in *.
  assert (HX : (x == inject_Z (z * 2 ^ (n - e1)) * pow2 e1)%Q).
  { rewrite Hx. pose proof (dyadic_shift z n (n - e1) ltac:(lia)) as Hs.
    replace (n - (n - e1)) with e1 in Hs by lia. symmetry. exact Hs. }
  assert (HV : (inject_Z (Z.pos m') * pow2 e'
                == inject_Z (Z.pos m' * 2 ^ (e' - e1)) * pow2 e1)%Q).
  { pose proof (dyadic_shift (Z.pos m') e' (e' - e1) ltac:(lia)) as Hs.
    replace (e' - (e' - e1)) with e1 in Hs by lia. symmetry. exact Hs. }
  assert (Hsame : Z.pos m' * 2 ^ (e' - e1) = z * 2 ^ (n - e1)).
  { set (V := Z.pos m' * 2 ^ (e' - e1)) in *. set (X := z * 2 ^ (n - e1)) in *.
    assert (Hw : V - X = 0); [|lia].
    apply inject_Z_half. unfold Zminus. rewrite inject_Z_plus, inject_Z_opp.
    rewrite HV, HX in Herr.
    replace (e1 - 1) with (-1 + e1) in Herr by lia.
    rewrite pow2_add, pow2_m1 in Herr.
    pose proof (pow2_pos e1) as Hp.
    apply Qabs_le_iff in Herr. destruct Herr as [Herr1 Herr2].
    apply Qabs_le_iff. split; nra. }
  exists m', e'.
  replace (e' <=? emax - prec) with true in Heq
    by (symmetry; apply Z.leb_le; unfold e1, prec, emax in *; lia).
  split; [exact Heq|]. split; [exact Hd'|].
  unfold dyadic at 1. rewrite HV, HX, Hsame. reflexivity.
Qed.

(** Aligning a mantissa of the normal range fills it up to [prec] digits. *)
Lemma shl_align_normal (mx : positive) (ex : Z) :
  -1022 < Z.pos (digits2_pos mx) + ex ->
  exists (mz : positive) (ez : Z),
    shl_align mx ex (fexp prec emax (Z.pos (digits2_pos mx) + ex)) = (mz, ez)
    /\ (dyadic (Z.pos mz) ez == dyadic (Z.pos mx) ex)%Q
    /\ prec <= Zdigits2 (Z.pos mz).
Proof.
  intros Hk. rewrite fexp_normal by (unfold prec; lia).
  set (d := Z.pos (digits2_pos mx)) in *.
  unfold shl_align. destruct (d + ex - prec - ex) as [|n|n] eqn:En.
  - exists mx, ex. split; [reflexivity|]. split; [reflexivity|]. cbn [Zdigits2]. fold d. lia.
  - exists mx, ex. split; [reflexivity|]. split; [reflexivity|]. cbn [Zdigits2]. fold d. lia.
  - exists (Pos.iter xO mx n), (d + ex - prec). split; [reflexivity|].
    rewrite iter_xO_pos. split.
    + replace (d + ex - prec) with (ex - Z.pos n) by lia. apply dyadic_shift. lia.
    + rewrite Zdigits2_shift by lia. cbn [Zdigits2]. fold d. lia.
Qed.

Lemma pow2_m1022_small : (pow2 (-1022) <= 1 # 4)%Q.
Proof. change (1 # 4)%Q with (pow2 (-2)). apply pow2_le. lia. Qed.

(** [float(a)] is [a] itself up to [2^53]. *)
Lemma float_of_int_exact (a : Z) :
  0 < a < 2 ^ prec ->
  exists (m : positive) (e : Z),
    float_of_int a = Ok (S754_finite false m e)
    /\ Z.pos (digits2_pos m) = prec
    /\ (dyadic (Z.pos m) e == inject_Z a)%Q.
Proof.
  intros [Ha Hlt]. destruct a as [|p|p]; try lia.
  pose proof (inject_Z_ge_1 (Z.pos p) Ha) as H1. pose proof pow2_m1022_le_1 as H2.
  assert (Hd : 0 < Z.pos (digits2_pos p)) by lia.
  destruct (shl_align_normal p 0 ltac:(lia)) as (mz & ez & Hal & Hval & Hdig).
  rewrite dyadic_0 in Hval.
  destruct (round_exact false (Z.pos mz) ez loc_Exact (inject_Z (Z.pos p)) (Z.pos p) 0)
    as (m & e & Heq & Hdm & Hv).
  - lia.
  - cbn [located]. rewrite <- Hval. apply dyadic_exact.
  - exact Hdig.
  - lra.
  - apply Qlt_trans with (pow2 prec); [apply Zlt_pow2; [unfold prec; lia|exact Hlt]|].
    apply pow2_lt. unfold prec, emax. lia.
  - lia.
  - apply Zdigits2_le; [lia|exact Hlt|unfold prec; lia].
  - rewrite dyadic_0. reflexivity.
  - exists m, e. unfold float_of_int. cbn [binary_normalize]. unfold binary_round.
    rewrite Hal, Heq. auto.
Qed.

(** [25 * q / 100] is the quarter [q / 4] itself up to [2^53]. *)
Lemma int_truediv_quarters (q : Z) :
  0 < q < 2 ^ prec ->
  exists (m : positive) (e : Z),
    int_truediv (25 * q) 100 = Ok (S754_finite false m e)
    /\ Z.pos (digits2_pos m) = prec
    /\ (dyadic (Z.pos m) e == inject_Z q / 4)%Q.
Proof.
  intros [Hq Hlt].
  pose proof (inject_Z_ge_1 q Hq) as H1. pose proof pow2_m1022_small as H2.
  assert (Hx : (dyadic (25 * q) 0 / dyadic 100 0 == inject_Z q / 4)%Q).
  { rewrite !dyadic_0, inject_Z_mult. change (inject_Z 25) with 25%Q.
    change (inject_Z 100) with 100%Q. field. }
  assert (Hxlo : (1 # 4 <= inject_Z q / 4)%Q).
  { unfold Qdiv. change (/ 4)%Q with (1 # 4)%Q. lra. }
  destruct (SFdiv_core_located (25 * q) 0 100 0) as (q' & e0 & l & Hcore & Hq' & Hloc & Hdig);
    [lia|lia|rewrite Hx; lra|].
  destruct (round_exact false q' e0 l (inject_Z q / 4) q (-2)) as (m & e & Heq & Hdm & Hv).
  - exact Hq'.
  - revert Hloc. apply located_ext. rewrite Hx. reflexivity.
  - exact Hdig.
  - lra.
  - apply Qlt_trans with (pow2 prec).
    + apply Qle_lt_trans with (inject_Z q); [|apply Zlt_pow2; [unfold prec; lia|exact Hlt]].
      unfold Qdiv. change (/ 4)%Q with (1 # 4)%Q. lra.
    + apply pow2_lt. unfold prec, emax. lia.
  - exact Hq.
  - apply Zdigits2_le; [lia|exact Hlt|unfold prec; lia].
  - unfold dyadic. change (pow2 (-2)) with (1 # 4)%Q. unfold Qdiv.
    change (/ 4)%Q with (1 # 4)%Q. reflexivity.
  - exists m, e. unfold int_truediv.
    change (100 =? 0) with false. cbv iota.
    replace (25 * q =? 0) with false by (symmetry; apply Z.eqb_neq; lia).
    rewrite (Z.abs_eq (25 * q)) by lia. change (Z.abs 100) with 100.
    rewrite Hcore.
    replace (25 * q <? 0) with false by (symmetry; apply Z.ltb_ge; lia).
    change (xorb false (100 <? 0)) with false. rewrite Heq. auto.
Qed.

(** The product of two floats is exact when [prec] digits hold it. *)
Lemma float_mul_exact (ma : positive) (ea : Z) (mr : positive) (er : Z) (z n : Z) :
  Z.pos (digits2_pos mr) = prec ->
  (pow2 (-1022) <= dyadic z n)%Q -> (dyadic z n < pow2 (emax - 1))%Q ->
  0 < z -> Zdigits2 z <= prec ->
  (dyadic (Z.pos ma) ea * dyadic (Z.pos mr) er == dyadic z n)%Q ->
  exists (m : positive) (e : Z),
    float_mul (S754_finite false ma ea) (S754_finite false mr er) = S754_finite false m e
    /\ (dyadic (Z.pos m) e == dyadic z n)%Q.
Proof.
  intros Hdr Hmin Hmax Hz Hdz Hx.
  destruct (round_exact false (Z.pos (ma * mr)) (ea + er) loc_Exact (dyadic z n) z n)
    as (m & e & Heq & _ & Hv); try assumption; try reflexivity; try lia.
  - cbn [located]. rewrite <- Hx. unfold dyadic. rewrite Pos2Z.inj_mul, inject_Z_mult.
    replace (- (ea + er)) with (- ea + - er) by lia. rewrite pow2_add.
    transitivity (inject_Z (Z.pos ma) * inject_Z (Z.pos mr)
                  * (pow2 (- ea) * pow2 ea) * (pow2 (- er) * pow2 er))%Q; [ring|].
    rewrite !pow2_cancel. ring.
  - apply (Zdigits2_ge _ (prec - 1)); [unfold prec; lia|].
    destruct (digits2_pos_bounds mr) as [Hlo _]. rewrite Hdr in Hlo.
    rewrite Pos2Z.inj_mul. nia.
  - exists m, e. unfold float_mul. cbn [SFmul xorb]. rewrite Heq. auto.
Qed.

Lemma bind_Ok {A B} (a : A) (k : A -> result B) : (Ok a ≫= k) = k a.
Proof. reflexivity. Qed.

(** X10. Quarter percents are exact: for [int]s [0 <= a] and [0 <= q] with
    [a], [q] and [a * q] below [2^53], [calculate_discount(a, 25 * q)]
    returns the float that is exactly [a * q / 4], with no rounding
    error; so 25, 50, 75 and 100 percent of an amount, and 0 percent of
    it, come out exact. *)
Theorem calculate_discount_exact_quarters (a q : Z) (st : state) :
  0 <= a < 2 ^ 53 -> 0 <= q < 2 ^ 53 -> a * q < 2 ^ 53 ->
  exists f : float,
    run (calculate_discount (VInt a) (VInt (25 * q))) st = (Ok (VFloat f), st)
    /\ is_finite f = true
    /\ (B2Q f == inject_Z a * inject_Z q / 4)%Q.
Proof.
  intros [Ha0 Ha] [Hq0 Hq] Haq. rewrite calculate_discount_spec. cbn [truediv].
  assert (Hzero : forall x : float,
             (exists s : bool, x = S754_zero s) ->
             (inject_Z a * inject_Z q == 0)%Q ->
             is_finite x = true /\ (B2Q x == inject_Z a * inject_Z q / 4)%Q).
  { intros x [s ->] H0. split; [reflexivity|]. cbn [B2Q]. unfold Qdiv. rewrite H0. ring. }
  assert (Hamount : a = 0 \/ 0 < a < 2 ^ prec) by (unfold prec; lia).
  assert (Hrate : q = 0 \/ 0 < q < 2 ^ prec) by (unfold prec; lia).
  destruct Hrate as [->|Hqpos].
  - (* nought percent *)
    change (int_truediv (25 * 0) 100) with (Ok (S754_zero false)).
    rewrite !bind_Ok. cbn [mul]. destruct Hamount as [->|Hapos].
    + change (float_of_int 0) with (Ok (S754_zero false)). rewrite !bind_Ok. cbv beta.
      eexists. split; [reflexivity|]. apply Hzero; [cbn; eauto|reflexivity].
    + destruct (float_of_int_exact a Hapos) as (m & e & -> & _ & _). rewrite !bind_Ok. cbv beta.
      eexists. split; [reflexivity|].
      apply Hzero; [cbn; eauto|]. change (inject_Z 0) with 0%Q. ring.
  - destruct (int_truediv_quarters q Hqpos) as (mr & er & -> & Hdr & Hr).
    rewrite !bind_Ok. cbn [mul]. destruct Hamount as [->|Hapos].
    + change (float_of_int 0) with (Ok (S754_zero false)). rewrite !bind_Ok. cbv beta.
      eexists. split; [reflexivity|].
      apply Hzero; [cbn; eauto|]. change (inject_Z 0) with 0%Q. ring.
    + destruct (float_of_int_exact a Hapos) as (ma & ea & -> & _ & Hfa). rewrite !bind_Ok. cbv beta.
      assert (Hval : (dyadic (a * q) (-2) == inject_Z a * inject_Z q / 4)%Q).
      { unfold dyadic. rewrite inject_Z_mult.
        change (pow2 (-2)) with (1 # 4)%Q. unfold Qdiv. change (/ 4)%Q with (1 # 4)%Q. ring. }
      assert (Hprod : (dyadic (Z.pos ma) ea * dyadic (Z.pos mr) er == dyadic (a * q) (-2))%Q).
      { rewrite Hfa, Hr, Hval. unfold Qdiv. ring. }
      pose proof (inject_Z_ge_1 (a * q) ltac:(nia)) as H1.
      pose proof pow2_m1022_small as H2.
      destruct (float_mul_exact ma ea mr er (a * q) (-2) Hdr) as (m & e & Hmul & Hv).
      * unfold dyadic. change (pow2 (-2)) with (1 # 4)%Q. lra.
      * apply Qlt_trans with (pow2 prec).
        -- apply Qle_lt_trans with (inject_Z (a * q));
             [|apply Zlt_pow2; [unfold prec; lia|exact Haq]].
           unfold dyadic. change (pow2 (-2)) with (1 # 4)%Q. lra.
        -- apply pow2_lt. unfold prec, emax. lia.
      * nia.
      * apply Zdigits2_le; [nia|exact Haq|lia].
      * exact Hprod.
      * rewrite Hmul. eexists. split; [reflexivity|]. split; [reflexivity|].
        cbn [B2Q]. rewrite Hv. exact Hval.
Qed.

Lemma calculate_discount_exact_quarters_witness :
  (0 <= 200 < 2 ^ 53 /\ 0 <= 3 < 2 ^ 53 /\ 200 * 3 < 2 ^ 53)
  /\ exists f : float,
       run (calculate_discount (VInt 200) (VInt (25 * 3))) main.initial
       = (Ok (VFloat f), main.initial)
       /\ is_finite f = true
       /\ (B2Q f == inject_Z 200 * inject_Z 3 / 4)%Q.
Proof.
  assert (Ha : 0 <= 200 < 2 ^ 53) by (split; [lia|reflexivity]).
  assert (Hq : 0 <= 3 < 2 ^ 53) by (split; [lia|reflexivity]).
  assert (Haq : 200 * 3 < 2 ^ 53) by reflexivity.
  split; [auto|].
  exact (calculate_discount_exact_quarters 200 3 main.initial Ha Hq Haq).
Defined.

(** ** Bounds of a sum *)

Lemma total_bounds (numbers : list Z) (lo hi : Z) :
  Forall (fun n => lo <= n <= hi) numbers ->
  Z.of_nat (length numbers) * lo <= total numbers <= Z.of_nat (length numbers) * hi.
Proof.
  induction 1 as [|n rest Hn _ IH]; [cbn; lia|].
  cbn [total length]. rewrite Nat2Z.inj_succ. lia.
Qed.

Lemma total_nonneg (numbers : list Z) :
  Forall (fun k => 0 <= k) numbers -> 0 <= total numbers.
Proof.
  induction 1 as [|k rest Hk _ IH]; cbn [total]; lia.
Qed.

Lemma total_ge_element (numbers : list Z) (n : Z) :
  Forall (fun k => 0 <= k) numbers -> In n numbers -> n <= total numbers.
Proof.
  induction 1 as [|k rest Hk Hrest IH]; intros Hin; [destruct Hin|].
  pose proof (total_nonneg rest Hrest) as Hnn.
  cbn [total]. destruct Hin as [->|Hin]; [lia|]. specialize (IH Hin). lia.
Qed.

(** X11. The sum of [n] numbers that all lie from [lo] to [hi] lies from
    [n * lo] to [n * hi]; and the sum of non-negative numbers is at least
    each of them. *)
Theorem sum_numbers_bounds :
  (forall (numbers : list Z) (lo hi : Z) (st : state),
     Forall (fun n => lo <= n <= hi) numbers ->
     exists s : Z,
       run (ArrayProcessor.sum_numbers numbers) st = (Ok (VInt s), st)
       /\ Z.of_nat (length numbers) * lo <= s <= Z.of_nat (length numbers) * hi)
  /\ (forall (numbers : list Z) (n : Z) (st : state),
        Forall (fun k => 0 <= k) numbers -> In n numbers ->
        exists s : Z,
          run (ArrayProcessor.sum_numbers numbers) st = (Ok (VInt s), st) /\ n <= s).
Proof.
  split.
  - intros numbers lo hi st Hall. exists (total numbers).
    split; [apply sum_numbers_spec|apply total_bounds, Hall].
  - intros numbers n st Hall Hin. exists (total numbers).
    split; [apply sum_numbers_spec|apply total_ge_element; assumption].
Qed.

Lemma sum_numbers_bounds_witness :
  Forall (fun n => 1 <= n <= 5) [1; 2; 3; 4; 5]
  /\ exists s : Z,
       run (ArrayProcessor.sum_numbers [1; 2; 3; 4; 5]) main.initial
       = (Ok (VInt s), main.initial)
       /\ Z.of_nat (length [1; 2; 3; 4; 5]) * 1 <= s <= Z.of_nat (length [1; 2; 3; 4; 5]) * 5.
Proof.
  assert (Hall : Forall (fun n => 1 <= n <= 5) [1; 2; 3; 4; 5])
    by (repeat constructor; lia).
  split; [exact Hall|].
  exact (proj1 sum_numbers_bounds [1; 2; 3; 4; 5] 1 5 main.initial Hall).
Defined.

(** ** The calling script: imports and final state *)

Lemma import_from_no_module (mods : modules) (module name : string) (st : state) :
  mods !! module = None ->
  run (import_from mods module name) st = (Raise (ModuleNotFoundError module), st).
Proof. intros Hm. unfold import_from. rewrite Hm. reflexivity. Qed.

Lemma import_from_no_name (mods : modules) (ns : gmap string pyobj)
    (module name : string) (st : state) :
  mods !! module = Some ns -> ns !! name = None ->
  run (import_from mods module name) st = (Raise (ImportError module name), st).
Proof. intros Hm Hn. unfold import_from. rewrite Hm, Hn. reflexivity. Qed.

(** X12. The script imports before it does anything else: when no module
    [greeter] can be found it raises [ModuleNotFoundError], and when the
    module lacks one of the four names it raises [ImportError] for the
    first one missing; in both cases nothing is printed and no object is
    created. *)
Theorem script_import_failures (mods : modules) (st : state) :
  (mods !! "greeter" = None ->
   run (main.script mods) st = (Raise (ModuleNotFoundError "greeter"), st))
  /\ (forall (ns : gmap string pyobj) (name : string),
        mods !! "greeter" = Some ns -> first_missing ns = Some name ->
        run (main.script mods) st = (Raise (ImportError "greeter" name), st)).
Proof.
  split.
  - intros Hm. unfold main.script.
    rewrite run_bind, (import_from_no_module _ _ _ _ Hm). reflexivity.
  - intros ns name Hm. unfold first_missing, imported_names, main.script. cbn [find].
    destruct (ns !! "greet") as [o1|] eqn:H1.
    2:{ intros [= <-]. rewrite run_bind, (import_from_no_name _ _ _ _ _ Hm H1). reflexivity. }
    rewrite run_bind, (import_from_spec _ _ _ _ _ _ Hm H1).
    destruct (ns !! "Greeter") as [o2|] eqn:H2.
    2:{ intros [= <-]. rewrite run_bind, (import_from_no_name _ _ _ _ _ Hm H2). reflexivity. }
    rewrite run_bind, (import_from_spec _ _ _ _ _ _ Hm H2).
    destruct (ns !! "calculate_discount") as [o3|] eqn:H3.
    2:{ intros [= <-]. rewrite run_bind, (import_from_no_name _ _ _ _ _ Hm H3). reflexivity. }
    rewrite run_bind, (import_from_spec _ _ _ _ _ _ Hm H3).
    destruct (ns !! "ArrayProcessor") as [o4|] eqn:H4.
    2:{ intros [= <-]. rewrite run_bind, (import_from_no_name _ _ _ _ _ Hm H4). reflexivity. }
    discriminate.
Qed.

Lemma script_import_failures_witness :
  let mods : modules := {[ "greeter" := namespace ]} in
  mods !! "greeter" = Some namespace
  /\ first_missing namespace = Some "Greeter"
  /\ run (main.script mods) main.initial
     = (Raise (ImportError "greeter" "Greeter"), main.initial).
Proof.
  intros mods.
  assert (Hm : mods !! "greeter" = Some namespace) by apply lookup_singleton_eq.
  assert (Hf : first_missing namespace = Some "Greeter") by (vm_compute; reflexivity).
  split; [exact Hm|]. split; [exact Hf|].
  exact (proj2 (script_import_failures mods main.initial) namespace "Greeter" Hm Hf).
Defined.

(** X13. Once [greeter] resolves, the script returns and leaves behind
    exactly this: the four lines appended to what the standard output held,
    and one new object, the greeting instance with the prefix ["Hi"]; the
    objects that existed are untouched. *)
Theorem script_final_state (mods : modules) (st : state) :
  greeter_resolves mods ->
  run (main.script mods) st
  = (Ok tt,
     State (<[fresh (dom (heap st)) := {[ "greeting" := VStr "Hi" ]}]> (heap st))
       (stdout st +:+ four_lines)).
Proof.
  intros (ns & Hm & Hgreet & HGreeter & Hdiscount & HProcessor).
  unfold main.script.
  rewrite run_bind, (import_from_spec _ _ _ _ _ _ Hm Hgreet).
  rewrite run_bind, (import_from_spec _ _ _ _ _ _ Hm HGreeter).
  rewrite run_bind, (import_from_spec _ _ _ _ _ _ Hm Hdiscount).
  rewrite run_bind, (import_from_spec _ _ _ _ _ _ Hm HProcessor).
  rewrite run_bind. unfold main.run_greeting_examples.
  rewrite run_bind. cbn [call1]. rewrite greet_spec.
  rewrite run_bind, print_spec. cbn [heap stdout].
  rewrite run_bind. cbn [call_class Redherring.class new].
  rewrite Redherring_call_spec. cbn [heap stdout].
  rewrite run_bind. cbn [call_method Redherring.class methods].
  rewrite lookup_singleton_eq.
  erewrite greet_person_spec;
    [|unfold stored_prefix; cbn [heap]; rewrite lookup_insert_eq; reflexivity].
  rewrite print_spec. cbn [heap stdout].
  rewrite run_bind. cbn [call2]. rewrite calculate_discount_spec.
  replace (rate ← truediv (VInt 15) (VInt 100); mul (VInt 200) rate)
    with (Ok (VFloat thirty)) by (vm_compute; reflexivity).
  rewrite run_bind, print_spec. cbn [heap stdout].
  rewrite run_bind. cbn [call_static ArrayProcessor.class staticmethods].
  rewrite lookup_singleton_eq, sum_numbers_spec, print_spec.
  cbn [stdout heap]. f_equal. f_equal.
  replace (str (VFloat thirty)) with "30.0" by (vm_compute; reflexivity).
  unfold four_lines. cbn [str total].
  rewrite !append_assoc. reflexivity.
Qed.

Lemma script_final_state_witness :
  greeter_resolves renamed
  /\ run (main.script renamed) main.initial
     = (Ok tt,
        State (<[fresh (dom (heap main.initial)) := {[ "greeting" := VStr "Hi" ]}]>
                 (heap main.initial))
          (stdout main.initial +:+ four_lines)).
Proof.
  assert (Hresolves : greeter_resolves renamed).
  { exists (<["Greeter" := Class Redherring.class]> namespace).
    repeat split; vm_compute; reflexivity. }
  split; [exact Hresolves|].
  exact (script_final_state renamed main.initial Hresolves).
Defined.
